(** * AS5048A encoder driver, angle unwrapper and discrete filter

    A shallow embedding of [src/AS5048A.cpp] (protocol driver and
    unwrapper), of the [DiscreteFilter] class template and of
    [filter::butterworth] (the functions of the C math library being
    parameters), together with the properties of the natural-language
    specification that concern them.

    Conventions.
    - A C++ [uintN_t] / [intN_t] value is a [Z] inside the range of the
      type; every conversion to such a type is written out ([u8], [u16],
      [i16], [i32]).
    - A C++ [float] is an IEEE-754 binary32 value and a [double] a binary64
      value, both as [spec_float] with the operations of
      [Stdlib.Floats.SpecFloat] at precision 24/128 and 53/1024.
    - A [std::array<T, SIZE>] is a [list] of length [SIZE], read with
      [!!!] and written with [<[i := v]>].
    - The product and the quotient of two [std::complex<double>] values
      are the routines [__muldc3] and [__divdc3] of the compiler's
      runtime. *)

From Stdlib Require Import ZArith Bool List Lia.
From Stdlib Require Import Floats.SpecFloat.
From stdpp Require Import base list.
From Stdlib Require Strings.String.
From Stdlib Require QArith.QArith_base QArith.Qabs.

Local Open Scope Z_scope.

(* ===================================================================== *)
(** * Fixed-width integers *)
(* ===================================================================== *)

Module Int.

(** Conversion to an unsigned type keeps the low bits; conversion to a
    signed type reads the same bits in two's complement. *)
Definition u8 (x : Z) : Z := Z.land x 0xFF.
Definition u16 (x : Z) : Z := Z.land x 0xFFFF.
Definition u32 (x : Z) : Z := Z.land x 0xFFFFFFFF.
Definition i16 (x : Z) : Z :=
  let y := u16 x in if y <? 0x8000 then y else y - 0x10000.
Definition i32 (x : Z) : Z :=
  let y := u32 x in if y <? 0x80000000 then y else y - 0x100000000.

Definition INT32_MIN : Z := - 0x80000000.
Definition INT32_MAX : Z := 0x7FFFFFFF.

(** C++ truth value of an integer used as a condition. *)
Definition truthy (x : Z) : bool := negb (x =? 0).

End Int.
Import Int.

(* ===================================================================== *)
(** * Parity *)
(* ===================================================================== *)

(** The loop of [AS5048A::spiCalcEvenParity]: [n] iterations left,
    [value] the shifted word, [cnt] the [uint8_t] counter. *)
Fixpoint spiCalcEvenParity_loop (n : nat) (value cnt : Z) : Z :=
  match n with
  | O => cnt
  | S n' =>
      let cnt := if truthy (Z.land value 0x1) then u8 (cnt + 1) else cnt in
      spiCalcEvenParity_loop n' (u16 (Z.shiftr value 1)) cnt
  end.

Definition spiCalcEvenParity (value : Z) : Z :=
  u8 (Z.land (spiCalcEvenParity_loop 16 value 0) 0x1).

(** [__builtin_parity] of GCC and Clang on an [unsigned int]: 1 when the
    number of set bits among the 32 is odd, 0 otherwise. *)
Fixpoint odd_bits (n : nat) (x : Z) : bool :=
  match n with
  | O => false
  | S n' => xorb (Z.testbit x (Z.of_nat n')) (odd_bits n' x)
  end.

Definition builtin_parity (x : Z) : Z := Z.b2z (odd_bits 32 x).

Definition spiCheckParity (value : Z) : Z :=
  let parityBit := u8 (Z.land (Z.shiftr value 15) 0x01) in
  let data := u16 (Z.land value 0x7FFF) in
  let dataParity := u8 (builtin_parity data) in
  if parityBit =? dataParity then 1 else 0.

(** A 16-bit word whose bit 15 is replaced by the computed parity of its
    low 15 bits, and a word with one bit flipped. *)
Definition with_parity (v : Z) : Z :=
  Z.lor (Z.land v 0x7FFF) (Z.shiftl (spiCalcEvenParity (Z.land v 0x7FFF)) 15).

Definition flip_bit (w i : Z) : Z := Z.lxor w (Z.shiftl 1 i).

(* ===================================================================== *)
(** * The encoder driver *)
(* ===================================================================== *)

Module Encoder.

Definition AS5048A_CLEAR_ERROR_FLAG : Z := 0x0001.
Definition AS5048A_DIAG_AGC : Z := 0x3FFD.
Definition AS5048A_MAGNITUDE : Z := 0x3FFE.
Definition AS5048A_ANGLE : Z := 0x3FFF.

(** Modelled from the spec: the header [AS5048A.hpp], which declares the
    constants [FULL_SCALE] and [HALF_SCALE] and the members [prevRaw],
    [prevRawinitialized] and [revCount], is not among the sources.  The
    specification gives the raw range [0, 16384), the half-scale threshold
    8192, and the member types: [previousRaw : u16],
    [previousRawInitialized : bool], [revolutionCount : i32]. *)
Definition FULL_SCALE : Z := 16384.
Definition HALF_SCALE : Z := 8192.

(** The data members of the class that the driver and the unwrapper read
    or write.  The [filter] member is built by the constructor and used by
    no member function (its only use is commented out). *)
Record AS5048A : Type := mkAS5048A {
  _cs : Z;
  errorFlag : bool;
  ocfFlag : bool;
  position : Z;
  debug : bool;
  prevRaw : Z;
  prevRawinitialized : bool;
  revCount : Z
}.

Definition set_errorFlag (b : bool) (d : AS5048A) : AS5048A :=
  mkAS5048A (_cs d) b (ocfFlag d) (position d) (debug d)
            (prevRaw d) (prevRawinitialized d) (revCount d).
Definition set_position (p : Z) (d : AS5048A) : AS5048A :=
  mkAS5048A (_cs d) (errorFlag d) (ocfFlag d) p (debug d)
            (prevRaw d) (prevRawinitialized d) (revCount d).
Definition set_prevRaw (r : Z) (d : AS5048A) : AS5048A :=
  mkAS5048A (_cs d) (errorFlag d) (ocfFlag d) (position d) (debug d)
            r (prevRawinitialized d) (revCount d).
Definition set_prevRawinitialized (b : bool) (d : AS5048A) : AS5048A :=
  mkAS5048A (_cs d) (errorFlag d) (ocfFlag d) (position d) (debug d)
            (prevRaw d) b (revCount d).
Definition set_revCount (n : Z) (d : AS5048A) : AS5048A :=
  mkAS5048A (_cs d) (errorFlag d) (ocfFlag d) (position d) (debug d)
            (prevRaw d) (prevRawinitialized d) n.

(** The serial bus as the driver sees it: [miso k] is the word the sensor
    shifts out during the [k]-th 16-bit transfer, [transfers] counts the
    transfers made so far and [mosi] logs the words sent, newest first.
    Chip-select toggling, delays and debug printing leave no trace in the
    driver's data and are not modelled. *)
Record SPIClass : Type := mkSPI {
  miso : nat -> Z;
  transfers : nat;
  mosi : list Z
}.

Record World : Type := mkWorld {
  dev : AS5048A;
  spi : SPIClass
}.

(** ** A state monad over the world *)

Definition M (A : Type) : Type := World -> A * World.

Definition ret {A : Type} (a : A) : M A := fun w => (a, w).

Definition bind {A B : Type} (m : M A) (k : A -> M B) : M B :=
  fun w => let (a, w') := m w in k a w'.

Notation "x <- m ;; k" := (bind m (fun x => k))
  (at level 100, m at next level, right associativity).
Notation "m ;;; k" := (bind m (fun _ => k))
  (at level 100, right associativity).

Definition this : M AS5048A := fun w => (dev w, w).

Definition modify (f : AS5048A -> AS5048A) : M unit :=
  fun w => (tt, mkWorld (f (dev w)) (spi w)).

Definition transfer16 (data : Z) : M Z :=
  fun w =>
    let s := spi w in
    (u16 (miso s (transfers s)),
     mkWorld (dev w) (mkSPI (miso s) (S (transfers s)) (data :: mosi s))).

Definition when (b : bool) (m : M unit) : M unit := if b then m else ret tt.

(** ** [AS5048A::read] *)

Definition read (registerAddress : Z) : M Z :=
  let command := 0x4000 in
  let command := u16 (Z.lor command registerAddress) in
  let command :=
    u16 (Z.lor command (u16 (Z.shiftl (spiCalcEvenParity command) 0xF))) in
  transfer16 command ;;;
  response <- transfer16 0x00 ;;
  (if truthy (Z.land response (Z.shiftr 0x01 14)) || (spiCheckParity response =? 0)
   then modify (set_errorFlag true)
   else modify (set_errorFlag false)) ;;;
  ret (u16 (Z.land response (Z.lnot 0xC000))).

Definition error : M bool := d <- this ;; ret (errorFlag d).

Definition getRawRotation : M Z := r <- read AS5048A_ANGLE ;; ret (i16 r).

(** ** [AS5048A::getRotationUnwrapped] *)

(** Arithmetic on [int32_t] is written with its two's-complement result
    ([i32]).  C++ leaves signed overflow undefined; the properties that
    depend on [--revCount] or [++revCount] are stated for counts inside
    the range of the type, where no overflow occurs. *)
Definition getRotationUnwrapped : M Z :=
  r <- getRawRotation ;;
  let raw := u16 r in
  d <- this ;;
  let raw := if errorFlag d then prevRaw d else raw in
  let raw := if raw =? 0 then prevRaw d else raw in
  let raw := if FULL_SCALE <=? raw then prevRaw d else raw in
  when (negb (prevRawinitialized d))
       (modify (set_prevRawinitialized true) ;;;
        modify (set_prevRaw raw) ;;;
        modify (set_revCount (-1))) ;;;
  d <- this ;;
  let delta := i16 (raw - prevRaw d) in
  (if HALF_SCALE <? delta then modify (set_revCount (i32 (revCount d - 1)))
   else if delta <? - HALF_SCALE then modify (set_revCount (i32 (revCount d + 1)))
   else ret tt) ;;;
  modify (set_prevRaw raw) ;;;
  d <- this ;;
  let continuous := i32 (i32 (revCount d * FULL_SCALE) + raw) in
  ret (i32 (i32 (continuous - i32 (position d)) - HALF_SCALE)).

(** ** Zero position *)

Definition setZeroPosition (position : Z) : M unit :=
  let position := u16 position in
  modify (set_position (u16 (Z.rem position 0x3FFF))).

Definition getZeroPosition : M Z := d <- this ;; ret (position d).

(** ** Reading the model *)

(** The word the sensor delivers as the response of the next [read]: the
    one shifted out during the second of its two transfers. *)
Definition incoming (w : World) : Z :=
  u16 (miso (spi w) (S (transfers (spi w)))).

(** The response word carries the 14-bit reading [raw] and passes the
    parity check. *)
Definition carries (resp raw : Z) : Prop :=
  spiCheckParity resp = 1 /\ u16 (Z.land resp (Z.lnot 0xC000)) = raw.

Definition exec {A : Type} (m : M A) (w : World) : World := snd (m w).
Definition eval {A : Type} (m : M A) (w : World) : A := fst (m w).

End Encoder.

(* ===================================================================== *)
(** * The rest of the driver: writes, diagnostics, single-turn rotation *)
(* ===================================================================== *)

Module Driver.
Import Encoder.
Import Stdlib.Strings.String.

Definition AS5048A_AGC_FLAG : Z := 0xFF.
Definition AS5048A_ERROR_PARITY_FLAG : Z := 0x04.
Definition AS5048A_ERROR_COMMAND_INVALID_FLAG : Z := 0x02.
Definition AS5048A_ERROR_FRAMING_FLAG : Z := 0x01.

Definition AS5048A_DIAG_COMP_HIGH : Z := 0x2000.
Definition AS5048A_DIAG_COMP_LOW : Z := 0x1000.
Definition AS5048A_DIAG_COF : Z := 0x0800.
Definition AS5048A_DIAG_OCF : Z := 0x0400.

Definition set_ocfFlag (b : bool) (d : AS5048A) : AS5048A :=
  mkAS5048A (_cs d) (errorFlag d) b (position d) (debug d)
            (prevRaw d) (prevRawinitialized d) (revCount d).

(** ** [AS5048A::write] *)

(** Three transfers: the address word, the data word, then a dummy word
    whose response is returned.  The settling delay before the third
    transfer leaves no trace in the driver's data. *)
Definition write (registerAddress data : Z) : M Z :=
  let command := 0x0000 in
  let command := u16 (Z.lor command registerAddress) in
  let command :=
    u16 (Z.lor command (u16 (Z.shiftl (spiCalcEvenParity command) 0xF))) in
  transfer16 command ;;;
  let dataToSend := 0x0000 in
  let dataToSend := u16 (Z.lor dataToSend data) in
  let dataToSend :=
    u16 (Z.lor dataToSend (u16 (Z.shiftl (spiCalcEvenParity dataToSend) 0xF))) in
  transfer16 dataToSend ;;;
  response <- transfer16 0x0000 ;;
  ret (u16 (Z.land response (Z.lnot 0xC000))).

(** ** Diagnostics *)

Definition getState : M Z := read AS5048A_DIAG_AGC.

Definition getGain : M Z :=
  data <- getState ;;
  ret (u8 (Z.land data AS5048A_AGC_FLAG)).

Definition getDiagnostic : M string :=
  data <- getState ;;
  if truthy (Z.land data AS5048A_DIAG_COMP_HIGH) then ret "COMP high"%string
  else if truthy (Z.land data AS5048A_DIAG_COMP_LOW) then ret "COMP low"%string
  else if truthy (Z.land data AS5048A_DIAG_COF) then ret "CORDIC overflow"%string
  else
    d <- this ;;
    if truthy (Z.land data AS5048A_DIAG_OCF) && Bool.eqb (ocfFlag d) false
    then modify (set_ocfFlag true) ;;; ret "Offset compensation finished"%string
    else ret EmptyString.

Definition getErrors : M string :=
  error <- read AS5048A_CLEAR_ERROR_FLAG ;;
  if truthy (Z.land error AS5048A_ERROR_PARITY_FLAG) then ret "Parity Error"%string
  else if truthy (Z.land error AS5048A_ERROR_COMMAND_INVALID_FLAG)
       then ret "Command invalid"%string
  else if truthy (Z.land error AS5048A_ERROR_FRAMING_FLAG) then ret "Framing error"%string
  else ret EmptyString.

(** ** [AS5048A::getRotation] *)

(** [return getRotationUnwrapped() - (revCount * FULL_SCALE);] converted
    to [int16_t].  C++ does not fix which operand of the subtraction is
    evaluated first, and the call changes [revCount]: [revCount_first]
    tells whether the member is read before the call or after it. *)
Definition getRotation (revCount_first : bool) : M Z :=
  if revCount_first then
    d <- this ;;
    unwrapped <- getRotationUnwrapped ;;
    ret (i16 (i32 (unwrapped - i32 (revCount d * FULL_SCALE))))
  else
    unwrapped <- getRotationUnwrapped ;;
    d <- this ;;
    ret (i16 (i32 (unwrapped - i32 (revCount d * FULL_SCALE)))).

(** ** Sequences of calls *)

(** The member functions modelled, as values, and the world after
    performing one of them or a list of them in order. *)
Inductive call : Type :=
| call_read (registerAddress : Z)
| call_write (registerAddress data : Z)
| call_getRawRotation
| call_getRotationUnwrapped
| call_getRotation (revCount_first : bool)
| call_getState
| call_getGain
| call_getDiagnostic
| call_getErrors
| call_setZeroPosition (position : Z)
| call_getZeroPosition
| call_error.

Definition perform (w : World) (c : call) : World :=
  match c with
  | call_read a => exec (read a) w
  | call_write a d => exec (write a d) w
  | call_getRawRotation => exec getRawRotation w
  | call_getRotationUnwrapped => exec getRotationUnwrapped w
  | call_getRotation o => exec (getRotation o) w
  | call_getState => exec getState w
  | call_getGain => exec getGain w
  | call_getDiagnostic => exec getDiagnostic w
  | call_getErrors => exec getErrors w
  | call_setZeroPosition p => exec (setZeroPosition p) w
  | call_getZeroPosition => exec getZeroPosition w
  | call_error => exec error w
  end.

Definition perform_all (w : World) (calls : list call) : World :=
  foldl perform w calls.

End Driver.

(* ===================================================================== *)
(** * Floating-point values *)
(* ===================================================================== *)

Module Float.

(** [float] is IEEE-754 binary32 and [double] binary64, both carried by
    [spec_float]; arithmetic rounds to nearest, ties to even. *)
Definition float : Type := spec_float.
Definition double : Type := spec_float.

Definition fadd : float -> float -> float := SFadd 24 128.
Definition fsub : float -> float -> float := SFsub 24 128.
Definition fmul : float -> float -> float := SFmul 24 128.
Definition fdiv : float -> float -> float := SFdiv 24 128.

Definition dadd : double -> double -> double := SFadd 53 1024.
Definition dsub : double -> double -> double := SFsub 53 1024.
Definition dmul : double -> double -> double := SFmul 53 1024.
Definition ddiv : double -> double -> double := SFdiv 53 1024.

(** The literals [0], [0.0f] and [0.0]. *)
Definition zero : spec_float := S754_zero false.

(** An integer, or an integer scaled by a power of two, as a literal of
    each format. *)
Definition float_lit (m e : Z) : float := binary_normalize 24 128 m e false.
Definition double_lit (m e : Z) : double := binary_normalize 53 1024 m e false.

(** Conversion [double -> float], as in the assignment of a [double] to a
    [float] array element. *)
Definition double_to_float (x : double) : float :=
  match x with
  | S754_finite s m e => binary_round 24 128 s m e
  | _ => x
  end.

(** [x == 0] holds for both signed zeros; a finite value is neither a NaN
    nor an infinity. *)
Definition is_zero (x : spec_float) : bool :=
  match x with S754_zero _ => true | _ => false end.

Definition is_finite (x : spec_float) : bool :=
  match x with S754_zero _ | S754_finite _ _ _ => true | _ => false end.

(** [isnan], [isinf], [signbit], [copysign], [fabs] and [<] of the C
    library.  [spec_float] has a single NaN, so the sign of a NaN is taken
    as positive. *)
Definition is_nan (x : spec_float) : bool :=
  match x with S754_nan => true | _ => false end.

Definition is_inf (x : spec_float) : bool :=
  match x with S754_infinity _ => true | _ => false end.

Definition signbit (x : spec_float) : bool :=
  match x with
  | S754_zero s | S754_infinity s | S754_finite s _ _ => s
  | S754_nan => false
  end.

Definition copysign (x y : spec_float) : spec_float :=
  if signbit y then SFopp (SFabs x) else SFabs x.

Definition fabs : spec_float -> spec_float := SFabs.
Definition dlt : double -> double -> bool := SFltb.
Definition INFINITY : spec_float := S754_infinity false.

#[global] Instance spec_float_inhabited : Inhabited spec_float := populate zero.

End Float.

(* ===================================================================== *)
(** * The discrete filter *)
(* ===================================================================== *)

Module Filter.
Import Float.

(** [Coefficients<SIZE, T>] with [T = float]. *)
Record Coefficients : Type := mkCoefficients {
  coef_naturalResponseCoefficients : list float;
  coef_forcedResponseCoefficients : list float
}.

(** The data members of [DiscreteFilter<SIZE, T>] with [T = float]. *)
Record DiscreteFilter : Type := mkDiscreteFilter {
  naturalResponseCoefficients : list float;
  forcedResponseCoefficients : list float;
  naturalResponse : list float;
  forcedResponse : list float
}.

Section DiscreteFilter.

(** The template parameter. *)
Variable SIZE : nat.

(** [for (int i = SIZE - 1; i > 0; i--) a[i] = a[i - 1];] entered with
    [i] as the loop variable. *)
Fixpoint shift_loop (i : nat) (a : list float) : list float :=
  match i with
  | O => a
  | S i' => shift_loop i' (<[S i' := a !!! i']> a)
  end.

(** [for (int i = 0; i < SIZE; i++) sum += b[i] * x[i];] *)
Definition forced_sum (b x : list float) (sum : float) : float :=
  foldl (fun sum i => fadd sum (fmul (b !!! i) (x !!! i))) sum (seq 0 SIZE).

(** [for (int i = 0; i < SIZE - 1; i++) sum -= a[i + 1] * y[i];] *)
Definition natural_sum (a y : list float) (sum : float) : float :=
  foldl (fun sum i => fsub sum (fmul (a !!! (i + 1)%nat) (y !!! i))) sum
        (seq 0 (SIZE - 1)).

(** The value of [sum] before the division by the leading coefficient,
    given the input history already shifted. *)
Definition weighted_sum (f : DiscreteFilter) (forcedResponse' : list float) : float :=
  natural_sum (naturalResponseCoefficients f) (naturalResponse f)
              (forced_sum (forcedResponseCoefficients f) forcedResponse' zero).

Definition filterData (f : DiscreteFilter) (dat : float) : float * DiscreteFilter :=
  let forcedResponse := shift_loop (SIZE - 1) (forcedResponse f) in
  let forcedResponse := <[0%nat := dat]> forcedResponse in
  let sum := weighted_sum f forcedResponse in
  let sum := fdiv sum (naturalResponseCoefficients f !!! 0%nat) in
  let naturalResponse := shift_loop (SIZE - 1) (naturalResponse f) in
  let naturalResponse := <[0%nat := sum]> naturalResponse in
  (naturalResponse !!! 0%nat,
   mkDiscreteFilter (naturalResponseCoefficients f) (forcedResponseCoefficients f)
                    naturalResponse forcedResponse).

Definition getLastFiltered (f : DiscreteFilter) : float := naturalResponse f !!! 0%nat.

Definition reset (f : DiscreteFilter) : float * DiscreteFilter :=
  (zero,
   mkDiscreteFilter (naturalResponseCoefficients f) (forcedResponseCoefficients f)
                    (replicate SIZE zero) (replicate SIZE zero)).

Definition fill (f : DiscreteFilter) (value : float) : float * DiscreteFilter :=
  (value,
   mkDiscreteFilter (naturalResponseCoefficients f) (forcedResponseCoefficients f)
                    (replicate SIZE value) (replicate SIZE value)).

Definition setCoefficients (f : DiscreteFilter) (coe : Coefficients) : DiscreteFilter :=
  mkDiscreteFilter (coef_naturalResponseCoefficients coe)
                   (coef_forcedResponseCoefficients coe)
                   (naturalResponse f) (forcedResponse f).

(** The constructor from a [Coefficients] value: the history arrays hold
    indeterminate values until [reset] fills them. *)
Definition DiscreteFilter_new (coefficients : Coefficients) : DiscreteFilter :=
  snd (reset (mkDiscreteFilter (coef_naturalResponseCoefficients coefficients)
                               (coef_forcedResponseCoefficients coefficients)
                               (replicate SIZE zero) (replicate SIZE zero))).

(** Feeding a sequence of samples, oldest first; the outputs in order. *)
Fixpoint feed (f : DiscreteFilter) (samples : list float) : list float * DiscreteFilter :=
  match samples with
  | [] => ([], f)
  | dat :: rest =>
      let (y, f') := filterData f dat in
      let (ys, f'') := feed f' rest in
      (y :: ys, f'')
  end.

End DiscreteFilter.

End Filter.

(* ===================================================================== *)
(** * Coefficient synthesis: polynomial expansion and storage *)
(* ===================================================================== *)

Module Design.
Import Float Filter.

Inductive FilterType : Type := LOWPASS | HIGHPASS | BANDPASS | BANDSTOP.

Definition FilterType_value (type : FilterType) : Z :=
  match type with
  | LOWPASS => 0
  | HIGHPASS => 1
  | BANDPASS => 2
  | BANDSTOP => 3
  end.

Definition getNumCoefficients (ORDER : nat) (type : FilterType) : nat :=
  ((1 + (if truthy (Z.land (FilterType_value type) 2) then 1 else 0)) * ORDER + 1)%nat.

(** [std::complex<double>].  Sums and differences act on the two parts.
    The product and the quotient of two complex numbers are not code of
    this repository: the compiler turns them into its runtime routines
    [__muldc3] and [__divdc3], which are modelled below as the GCC runtime
    (libgcc2.c, as of GCC 12) defines them. *)
Record complex : Type := mkComplex { real : double; imag : double }.

Definition Cadd (x y : complex) : complex :=
  mkComplex (dadd (real x) (real y)) (dadd (imag x) (imag y)).
Definition Csub (x y : complex) : complex :=
  mkComplex (dsub (real x) (real y)) (dsub (imag x) (imag y)).

(** [COPYSIGN (isinf (x) ? 1 : 0, x)] and
    [if (isnan (x)) x = COPYSIGN (0, x)]. *)
Definition boxed (x : double) : double :=
  copysign (if is_inf x then double_lit 1 0 else zero) x.
Definition nan_to_zero (x : double) : double :=
  if is_nan x then copysign zero x else x.

(** [__muldc3 (a, b, c, d)], the product (a + ib)(c + id): the four
    products and their combination, then the recovery of infinities when
    both parts came out as NaN. *)
Definition muldc3 (a b c d : double) : complex :=
  let ac := dmul a c in
  let bd := dmul b d in
  let ad := dmul a d in
  let bc := dmul b c in
  let x := dsub ac bd in
  let y := dadd ad bc in
  if is_nan x && is_nan y then
    let '(a, b, c, d, recalc) :=
      if is_inf a || is_inf b
      then (boxed a, boxed b, nan_to_zero c, nan_to_zero d, true)
      else (a, b, c, d, false) in
    let '(a, b, c, d, recalc) :=
      if is_inf c || is_inf d
      then (nan_to_zero a, nan_to_zero b, boxed c, boxed d, true)
      else (a, b, c, d, recalc) in
    let '(a, b, c, d, recalc) :=
      if negb recalc && (is_inf ac || is_inf bd || is_inf ad || is_inf bc)
      then (nan_to_zero a, nan_to_zero b, nan_to_zero c, nan_to_zero d, true)
      else (a, b, c, d, recalc) in
    if recalc
    then mkComplex (dmul INFINITY (dsub (dmul a c) (dmul b d)))
                   (dmul INFINITY (dadd (dmul a d) (dmul b c)))
    else mkComplex x y
  else mkComplex x y.

Definition Cmul (x y : complex) : complex :=
  muldc3 (real x) (imag x) (real y) (imag y).

Definition C0 : complex := mkComplex zero zero.
Definition C1 : complex := mkComplex (double_lit 1 0) zero.

#[global] Instance complex_inhabited : Inhabited complex := populate C0.

(** ** [expandPolynomial<ORDER>] *)

(** The body of the inner loop, for the factor [i] and the index [j]. *)
Definition expand_step (zeros coefficients : list complex) (i : nat)
    (newCoefficients : list complex) (j : nat) : list complex :=
  let newCoefficients :=
    <[j := Csub (newCoefficients !!! j)
                (Cmul (coefficients !!! j) (zeros !!! i))]> newCoefficients in
  <[(j + 1)%nat := Cadd (newCoefficients !!! (j + 1)%nat) (coefficients !!! j)]>
    newCoefficients.

(** The body of the outer loop: multiply the polynomial by (x - zeros[i]). *)
Definition expand_factor (ORDER : nat) (zeros coefficients : list complex) (i : nat)
    : list complex :=
  foldl (expand_step zeros coefficients i) (replicate (ORDER + 1) C0) (seq 0 (i + 1)).

Definition expandPolynomial (ORDER : nat) (zeros : list complex) : list double :=
  let coefficients :=
    foldl (expand_factor ORDER zeros) (C1 :: replicate ORDER C0) (seq 0 ORDER) in
  real <$> coefficients.

(** ** The tail of [butterworth] *)

(** [for (size_t i = 0; i < COEFFICIENTS; ++i)] storing both vectors in
    reverse order, each [double] converted to [float]. *)
Definition store_reversed (COEFFICIENTS : nat) (a b : list double)
    (arrays : Coefficients) : Coefficients :=
  foldl (fun arrays i =>
           mkCoefficients
             (<[(COEFFICIENTS - i - 1)%nat := double_to_float (a !!! i)]>
                (coef_naturalResponseCoefficients arrays))
             (<[(COEFFICIENTS - i - 1)%nat := double_to_float (b !!! i)]>
                (coef_forcedResponseCoefficients arrays)))
        arrays (seq 0 COEFFICIENTS).

(** What [butterworth] does with the poles and zeros in the z-plane and
    with the gain [scale = 1 / mag] once it has them: expand the two
    polynomials, scale the numerator, store both reversed.  [arrays]
    stands for the two local arrays before the loop writes them. *)
Definition butterworth_store (COEFFICIENTS : nat) (zZeros zPoles : list complex)
    (scale : double) (arrays : Coefficients) : Coefficients :=
  let b := expandPolynomial (COEFFICIENTS - 1) zZeros in
  let a := expandPolynomial (COEFFICIENTS - 1) zPoles in
  let b := (fun coef => dmul coef scale) <$> b in
  store_reversed COEFFICIENTS a b arrays.

(** ** The whole of [butterworth] *)

(** Arithmetic of [std::complex<double>] with a [double] on one side, as
    the library defines it: the scalar acts on both parts in a product,
    on the real part in a sum or a difference. *)
Definition Cre (x : double) : complex := mkComplex x zero.
Definition Cneg (z : complex) : complex :=
  mkComplex (SFopp (real z)) (SFopp (imag z)).
Definition Cmul_d (z : complex) (x : double) : complex :=
  mkComplex (dmul (real z) x) (dmul (imag z) x).
Definition Cadd_d (z : complex) (x : double) : complex :=
  mkComplex (dadd (real z) x) (imag z).
Definition d_sub_C (x : double) (z : complex) : complex := Cadd_d (Cneg z) x.

(** The constants of [__divdc3] for [double]: [DBL_MAX / 2], [DBL_MIN],
    [DBL_EPSILON], [1 / DBL_EPSILON] and [RBIG * RMIN2]. *)
Definition DBL_MAX : double := S754_finite false (2 ^ 53 - 1) 971.
Definition RBIG : double := ddiv DBL_MAX (double_lit 2 0).
Definition RMIN : double := double_lit 1 (-1022).
Definition RMIN2 : double := double_lit 1 (-52).
Definition RMINSCAL : double := ddiv (double_lit 1 0) RMIN2.
Definition RMAX2 : double := dmul RBIG RMIN2.

Definition scale4 (k : double -> double) (v : double * double * double * double)
    : double * double * double * double :=
  let '(a, b, c, d) := v in (k a, k b, k c, k d).

(** The rescaling of the four operands before the division.  [big] is the
    part of the divisor of larger magnitude ([d] in the first branch of
    [__divdc3], [c] in the second): all four are halved when it is at
    least [RBIG], and multiplied by [RMINSCAL] when it is below [RMIN2] or
    when a part of the dividend is below [RMIN]. *)
Definition prescale (a b c d big : double) : double * double * double * double :=
  let v := (a, b, c, d) in
  let '(v, big) :=
    if negb (dlt (fabs big) RBIG) && negb (is_nan big)
    then (scale4 (fun t => ddiv t (double_lit 2 0)) v, ddiv big (double_lit 2 0))
    else (v, big) in
  let '(a, b, c, d) := v in
  if dlt (fabs big) RMIN2
  then scale4 (fun t => dmul t RMINSCAL) v
  else if (dlt (fabs a) RMIN && dlt (fabs b) RMAX2 && dlt (fabs big) RMAX2)
          || (dlt (fabs b) RMIN && dlt (fabs a) RMAX2 && dlt (fabs big) RMAX2)
       then scale4 (fun t => dmul t RMINSCAL) v
       else v.

(** [__divdc3 (a, b, c, d)], the quotient (a + ib) / (c + id): the ratio
    of the smaller part of the divisor to the larger one is formed first
    (in another order when that ratio is subnormal), then infinities and
    zeros are recovered when both parts came out as NaN.  The sign of a
    NaN, which [spec_float] does not record, can only show in the sign of
    a zero recovered for a divisor with one NaN part and one infinite
    part. *)
Definition divdc3 (a b c d : double) : complex :=
  let '(a, b, c, d, x, y) :=
    if dlt (fabs c) (fabs d)
    then
      let '(a, b, c, d) := prescale a b c d d in
      let ratio := ddiv c d in
      let denom := dadd (dmul c ratio) d in
      if dlt RMIN (fabs ratio)
      then (a, b, c, d, ddiv (dadd (dmul a ratio) b) denom,
                        ddiv (dsub (dmul b ratio) a) denom)
      else (a, b, c, d, ddiv (dadd (dmul c (ddiv a d)) b) denom,
                        ddiv (dsub (dmul c (ddiv b d)) a) denom)
    else
      let '(a, b, c, d) := prescale a b c d c in
      let ratio := ddiv d c in
      let denom := dadd (dmul d ratio) c in
      if dlt RMIN (fabs ratio)
      then (a, b, c, d, ddiv (dadd (dmul b ratio) a) denom,
                        ddiv (dsub b (dmul a ratio)) denom)
      else (a, b, c, d, ddiv (dadd (dmul d (ddiv b c)) a) denom,
                        ddiv (dsub b (dmul d (ddiv a c))) denom) in
  if is_nan x && is_nan y then
    if SFeqb c zero && SFeqb d zero && (negb (is_nan a) || negb (is_nan b))
    then mkComplex (dmul (copysign INFINITY c) a) (dmul (copysign INFINITY c) b)
    else if (is_inf a || is_inf b) && is_finite c && is_finite d
    then
      let a := boxed a in
      let b := boxed b in
      mkComplex (dmul INFINITY (dadd (dmul a c) (dmul b d)))
                (dmul INFINITY (dsub (dmul b c) (dmul a d)))
    else if (is_inf c || is_inf d) && is_finite a && is_finite b
    then
      let c := boxed c in
      let d := boxed d in
      mkComplex (dmul zero (dadd (dmul a c) (dmul b d)))
                (dmul zero (dsub (dmul b c) (dmul a d)))
    else mkComplex x y
  else mkComplex x y.

Definition Cdiv (x y : complex) : complex :=
  divdc3 (real x) (imag x) (real y) (imag y).
Definition d_div_C (x : double) (z : complex) : complex := Cdiv (Cre x) z.

Definition dsqrt : double -> double := SFsqrt 53 1024.
Definition double_of_nat (k : nat) : double := double_lit (Z.of_nat k) 0.

(** [M_PI], the binary64 value nearest to pi. *)
Definition M_PI : double := S754_finite false 7074237752028440 (-51).

Section Butterworth.

(** The functions of the C math library the design calls.  Their results
    are not fixed bit for bit by any standard, so they are parameters. *)
Variables (tan cos sin : double -> double) (atan2 : double -> double -> double).

Definition s2z (s : complex) (Ts : double) : complex :=
  Cdiv (Cadd (Cre (double_lit 1 0)) (Cmul_d s (ddiv Ts (double_lit 2 0))))
       (Csub (Cre (double_lit 1 0)) (Cmul_d s (ddiv Ts (double_lit 2 0)))).

Definition complexAbs (z : complex) : double :=
  dsqrt (dadd (dmul (real z) (real z)) (dmul (imag z) (imag z))).

Definition complexSqrt (z : complex) : complex :=
  let r := dsqrt (complexAbs z) in
  let theta := dmul (atan2 (imag z) (real z)) (double_lit 1 (-1)) in
  mkComplex (dmul r (cos theta)) (dmul r (sin theta)).

(** One term [c * (cos(omega k) - j sin(omega k))] of a response sum. *)
Definition response_term (omega c : double) (k : nat) : complex :=
  let j := mkComplex zero (double_lit 1 0) in
  Cmul_d (d_sub_C (cos (dmul omega (double_of_nat k)))
                  (Cmul_d j (sin (dmul omega (double_of_nat k)))))
         c.

Definition evaluateFrequencyResponse (b a : list double) (w Ts : double) : complex :=
  let omega := dmul w Ts in
  let numerator :=
    foldl (fun acc k => Cadd acc (response_term omega (b !!! k) k))
          C0 (seq 0 (length b)) in
  let denominator :=
    foldl (fun acc k => Cadd acc (response_term omega (a !!! k) k))
          C0 (seq 0 (length a)) in
  Cdiv numerator denominator.

(** The prototype poles on the unit circle, in an array of
    [COEFFICIENTS - 1] value-initialized complex numbers. *)
Definition prototype_poles (ORDER COEFFICIENTS : nat) : list complex :=
  foldl (fun poles k =>
           let theta :=
             dadd (ddiv (dmul M_PI (dadd (dmul (double_lit 2 0) (double_of_nat k))
                                         (double_lit 1 0)))
                        (dmul (double_lit 2 0) (double_of_nat ORDER)))
                  (ddiv M_PI (double_lit 2 0)) in
           <[k := mkComplex (cos theta) (sin theta)]> poles)
        (replicate (COEFFICIENTS - 1) C0) (seq 0 ORDER).

Definition map_s2z (COEFFICIENTS : nat) (analog : list complex) (Ts : double)
    : list complex :=
  foldl (fun zPoles i => <[i := s2z (analog !!! i) Ts]> zPoles)
        (replicate (COEFFICIENTS - 1) C0) (seq 0 (COEFFICIENTS - 1)).

(** The pole pairs of the band-pass and band-stop transforms. *)
Definition bandpass_poles (ORDER : nat) (poles : list complex) (wl whp : double)
    : list complex :=
  let B := dsub whp wl in
  let W0sq := dmul whp wl in
  foldl (fun bs j =>
           let p := poles !!! j in
           let discriminant :=
             Csub (Cmul (Cmul_d p B) (Cmul_d p B))
                  (Cmul_d (Cre (double_lit 4 0)) W0sq) in
           let root := complexSqrt discriminant in
           let bs := <[(2 * j)%nat :=
                        Cmul (Cadd (Cmul_d p B) root) (Cre (double_lit 1 (-1)))]> bs in
           <[(2 * j + 1)%nat :=
               Cmul (Csub (Cmul_d p B) root) (Cre (double_lit 1 (-1)))]> bs)
        (replicate (2 * ORDER) C0) (seq 0 ORDER).

Definition bandstop_poles (ORDER : nat) (poles : list complex) (wl whp : double)
    : list complex :=
  let B := dsub whp wl in
  let W0sq := dmul whp wl in
  foldl (fun bs j =>
           let p := poles !!! j in
           let discriminant :=
             d_sub_C (dmul B B)
                     (Cmul_d (Cmul (Cre (double_lit 4 0)) (Cneg p)) W0sq) in
           let root := complexSqrt discriminant in
           let bs := <[(2 * j)%nat :=
                        Cdiv (Cadd_d root B) (Cmul (Cre (double_lit 2 0)) p)]> bs in
           <[(2 * j + 1)%nat :=
               Cdiv (d_sub_C B root) (Cmul (Cre (double_lit 2 0)) p)]> bs)
        (replicate (2 * ORDER) C0) (seq 0 ORDER).

Definition design_zPoles (ORDER : nat) (type : FilterType) (wl whp Ts : double)
    : list complex :=
  let COEFFICIENTS := getNumCoefficients ORDER type in
  let poles := prototype_poles ORDER COEFFICIENTS in
  match type with
  | LOWPASS =>
      let poles :=
        foldl (fun poles j => <[j := Cmul_d (poles !!! j) wl]> poles) poles (seq 0 ORDER) in
      map_s2z COEFFICIENTS poles Ts
  | HIGHPASS =>
      let poles :=
        foldl (fun poles j => <[j := d_div_C wl (poles !!! j)]> poles) poles (seq 0 ORDER) in
      map_s2z COEFFICIENTS poles Ts
  | BANDPASS => map_s2z COEFFICIENTS (bandpass_poles ORDER poles wl whp) Ts
  | BANDSTOP => map_s2z COEFFICIENTS (bandstop_poles ORDER poles wl whp) Ts
  end.

Definition design_zZeros (ORDER : nat) (type : FilterType) (wl whp Ts : double)
    : list complex :=
  let COEFFICIENTS := getNumCoefficients ORDER type in
  match type with
  | LOWPASS => replicate (COEFFICIENTS - 1) (mkComplex (double_lit (-1) 0) zero)
  | HIGHPASS => replicate (COEFFICIENTS - 1) (mkComplex (double_lit 1 0) zero)
  | BANDPASS =>
      foldl (fun zZeros i =>
               <[i := if Nat.even i then mkComplex (double_lit 1 0) zero
                      else mkComplex (double_lit (-1) 0) zero]> zZeros)
            (replicate (COEFFICIENTS - 1) C0) (seq 0 (COEFFICIENTS - 1))
  | BANDSTOP =>
      let omega0 := dmul (dsqrt (dmul wl whp)) Ts in
      let realPart := cos omega0 in
      let imagPart := sin omega0 in
      let zeroPlus := mkComplex realPart imagPart in
      let zeroMinus := mkComplex realPart (SFopp imagPart) in
      foldl (fun zZeros h =>
               let i := (2 * h)%nat in
               let zZeros := <[i := zeroPlus]> zZeros in
               if (i + 1 <? COEFFICIENTS)%nat then <[(i + 1)%nat := zeroMinus]> zZeros
               else zZeros)
            (replicate (COEFFICIENTS - 1) C0)
            (seq 0 (Nat.div2 (COEFFICIENTS - 1 + 1)))
  end.

(** The frequency at which the gain is normalised. *)
Definition design_reference (type : FilterType) (wl whp Ts : double) : double :=
  match type with
  | LOWPASS => double_lit 0 0
  | HIGHPASS => ddiv M_PI Ts
  | BANDPASS => dsqrt (dmul wl whp)
  | BANDSTOP => double_lit 0 0
  end.

(** Pre-warping of an edge frequency for the bilinear transform. *)
Definition prewarp (w Ts : double) : double :=
  dmul (ddiv (double_lit 2 0) Ts) (tan (dmul w (ddiv Ts (double_lit 2 0)))).

(** [butterworth<ORDER, Type, float>(wc, Ts, wh)]; [arrays] stands for the
    two local coefficient arrays, which the function declares without
    initialising them. *)
Definition butterworth (ORDER : nat) (type : FilterType) (wc Ts wh : double)
    (arrays : Coefficients) : Coefficients :=
  let COEFFICIENTS := getNumCoefficients ORDER type in
  let wl := prewarp wc Ts in
  let whp := prewarp wh Ts in
  let zPoles := design_zPoles ORDER type wl whp Ts in
  let zZeros := design_zZeros ORDER type wl whp Ts in
  let b := expandPolynomial (COEFFICIENTS - 1) zZeros in
  let a := expandPolynomial (COEFFICIENTS - 1) zPoles in
  let freqResp := evaluateFrequencyResponse b a (design_reference type wl whp Ts) Ts in
  let mag := complexAbs freqResp in
  let scale := ddiv (double_lit 1 0) mag in
  butterworth_store COEFFICIENTS zZeros zPoles scale arrays.

(** The local [a] of [butterworth]: the expanded pole polynomial, constant
    term first. *)
Definition butterworth_a (ORDER : nat) (type : FilterType) (wc Ts wh : double)
    : list double :=
  expandPolynomial (getNumCoefficients ORDER type - 1)
                   (design_zPoles ORDER type (prewarp wc Ts) (prewarp wh Ts) Ts).

End Butterworth.

End Design.

(* ===================================================================== *)
(** * Properties: fixed-width integers *)
(* ===================================================================== *)

Module IntFacts.

Lemma u8_mod x : u8 x = x mod 2 ^ 8.
Proof. unfold u8. change 0xFF with (Z.ones 8). apply Z.land_ones. lia. Qed.

Lemma u16_mod x : u16 x = x mod 2 ^ 16.
Proof. unfold u16. change 0xFFFF with (Z.ones 16). apply Z.land_ones. lia. Qed.

Lemma u32_mod x : u32 x = x mod 2 ^ 32.
Proof. unfold u32. change 0xFFFFFFFF with (Z.ones 32). apply Z.land_ones. lia. Qed.

Lemma u8_small x : 0 <= x < 256 -> u8 x = x.
Proof. intros H. rewrite u8_mod. apply Z.mod_small. lia. Qed.

Lemma u16_small x : 0 <= x < 65536 -> u16 x = x.
Proof. intros H. rewrite u16_mod. apply Z.mod_small. lia. Qed.

Lemma u16_range x : 0 <= u16 x < 65536.
Proof. rewrite u16_mod. apply Z.mod_pos_bound. lia. Qed.

Lemma i16_small x : -32768 <= x < 32768 -> i16 x = x.
Proof.
  intros H. unfold i16. rewrite u16_mod.
  destruct (Z.ltb_spec (x mod 2 ^ 16) 0x8000) as [Hlt|Hge].
  - destruct (Z.neg_nonneg_cases x) as [Hneg|Hpos].
    + rewrite <- (Z.mod_add x 1) in Hlt by lia.
      rewrite Z.mod_small in Hlt by lia. lia.
    + apply Z.mod_small. lia.
  - destruct (Z.neg_nonneg_cases x) as [Hneg|Hpos].
    + rewrite <- (Z.mod_add x 1) by lia.
      rewrite Z.mod_small by lia. lia.
    + rewrite Z.mod_small in Hge by lia. lia.
Qed.

Lemma i32_small x : INT32_MIN <= x <= INT32_MAX -> i32 x = x.
Proof.
  unfold INT32_MIN, INT32_MAX. intros H. unfold i32. rewrite u32_mod.
  destruct (Z.ltb_spec (x mod 2 ^ 32) 0x80000000) as [Hlt|Hge].
  - destruct (Z.neg_nonneg_cases x) as [Hneg|Hpos].
    + rewrite <- (Z.mod_add x 1) in Hlt by lia.
      rewrite Z.mod_small in Hlt by lia. lia.
    + apply Z.mod_small. lia.
  - destruct (Z.neg_nonneg_cases x) as [Hneg|Hpos].
    + rewrite <- (Z.mod_add x 1) by lia.
      rewrite Z.mod_small by lia. lia.
    + rewrite Z.mod_small in Hge by lia. lia.
Qed.

End IntFacts.

(* ===================================================================== *)
(** * Properties: parity as the exclusive-or of bits *)
(* ===================================================================== *)

Module ParityFacts.
Import IntFacts.

Lemma land_1_odd x : Z.land x 0x1 = Z.b2z (Z.odd x).
Proof.
  change 0x1 with (Z.ones 1). rewrite Z.land_ones by lia.
  rewrite <- Z.bit0_odd. symmetry. apply Z.bit0_mod.
Qed.

Lemma truthy_b2z b : truthy (Z.b2z b) = b.
Proof. destruct b; reflexivity. Qed.

Lemma u8_b2z b : u8 (Z.b2z b) = Z.b2z b.
Proof. destruct b; reflexivity. Qed.

Lemma odd_u8 x : Z.odd (u8 x) = Z.odd x.
Proof.
  unfold u8. rewrite <- !Z.bit0_odd, Z.land_spec. change (Z.testbit 0xFF 0) with true.
  apply andb_true_r.
Qed.

Lemma odd_bits_ext (n : nat) (x y : Z) :
  (forall j, 0 <= j < Z.of_nat n -> Z.testbit x j = Z.testbit y j) ->
  odd_bits n x = odd_bits n y.
Proof.
  induction n as [|n IH]; intros H; [reflexivity|].
  cbn [odd_bits]. rewrite (H (Z.of_nat n)) by lia. f_equal. apply IH.
  intros j Hj. apply H. lia.
Qed.

Lemma odd_bits_high_zero (m k : nat) (x : Z) :
  (forall j, Z.of_nat m <= j -> Z.testbit x j = false) ->
  odd_bits (k + m) x = odd_bits m x.
Proof.
  intros H. induction k as [|k IH]; [reflexivity|].
  cbn [Nat.add odd_bits]. rewrite H by lia. exact IH.
Qed.

(** Peeling the lowest bit instead of the highest one. *)
Lemma odd_bits_low (n : nat) (x : Z) :
  odd_bits (S n) x = xorb (Z.odd x) (odd_bits n (Z.shiftr x 1)).
Proof.
  induction n as [|n IH].
  - cbn [odd_bits]. change (Z.of_nat 0) with 0. rewrite Z.bit0_odd.
    reflexivity.
  - change (odd_bits (S (S n)) x)
      with (xorb (Z.testbit x (Z.of_nat (S n))) (odd_bits (S n) x)).
    rewrite IH. cbn [odd_bits]. rewrite Z.shiftr_spec by lia.
    replace (Z.of_nat n + 1) with (Z.of_nat (S n)) by lia.
    destruct (Z.testbit x (Z.of_nat (S n))), (Z.odd x), (odd_bits n (Z.shiftr x 1));
      reflexivity.
Qed.

Lemma shiftr_1_u16 x : 0 <= x < 65536 -> u16 (Z.shiftr x 1) = Z.shiftr x 1.
Proof.
  intros H. apply u16_small. rewrite Z.shiftr_div_pow2 by lia.
  change (2 ^ 1) with 2. split.
  - apply Z.div_pos; lia.
  - apply Z.div_lt_upper_bound; lia.
Qed.

Lemma spiCalcEvenParity_loop_odd (n : nat) :
  forall value cnt, 0 <= value < 65536 ->
  Z.odd (spiCalcEvenParity_loop n value cnt) = xorb (Z.odd cnt) (odd_bits n value).
Proof.
  induction n as [|n IH]; intros value cnt Hv.
  - cbn [spiCalcEvenParity_loop odd_bits]. symmetry. apply xorb_false_r.
  - cbn [spiCalcEvenParity_loop]. rewrite odd_bits_low.
    assert (Hs : 0 <= Z.shiftr value 1 < 65536).
    { rewrite <- (shiftr_1_u16 value Hv). apply u16_range. }
    rewrite (shiftr_1_u16 value Hv), IH by exact Hs.
    rewrite land_1_odd, truthy_b2z.
    destruct (Z.odd value) eqn:Hodd.
    + rewrite odd_u8, Z.odd_add. change (Z.odd 1) with true.
      destruct (Z.odd cnt), (odd_bits n (Z.shiftr value 1)); reflexivity.
    + destruct (Z.odd cnt), (odd_bits n (Z.shiftr value 1)); reflexivity.
Qed.

Lemma spiCalcEvenParity_bits value :
  0 <= value < 65536 -> spiCalcEvenParity value = Z.b2z (odd_bits 16 value).
Proof.
  intros Hv. unfold spiCalcEvenParity.
  rewrite land_1_odd, u8_b2z, spiCalcEvenParity_loop_odd by exact Hv.
  reflexivity.
Qed.

Lemma testbit_low15 w j :
  0 <= j -> Z.testbit (Z.land w 0x7FFF) j = Z.testbit w j && (j <? 15).
Proof.
  intros Hj. change 0x7FFF with (Z.ones 15). rewrite Z.land_spec. f_equal.
  destruct (Z.ltb_spec j 15).
  - apply Z.ones_spec_low. lia.
  - apply Z.ones_spec_high. lia.
Qed.

Lemma odd_bits_low15 (w : Z) : odd_bits 32 (Z.land w 0x7FFF) = odd_bits 15 w.
Proof.
  rewrite (odd_bits_high_zero 15 17).
  - apply odd_bits_ext. intros j Hj. rewrite testbit_low15 by lia.
    destruct (Z.ltb_spec j 15); [apply andb_true_r|lia].
  - intros j Hj. rewrite testbit_low15 by lia.
    destruct (Z.ltb_spec j 15); [lia|apply andb_false_r].
Qed.

Lemma low15_range w : 0 <= Z.land w 0x7FFF < 32768.
Proof.
  change 0x7FFF with (Z.ones 15). rewrite Z.land_ones by lia.
  apply Z.mod_pos_bound. lia.
Qed.

(** A word passes [spiCheckParity] exactly when an even number of its 16
    bits is set. *)
Lemma spiCheckParity_bits w :
  spiCheckParity w = if odd_bits 16 w then 0 else 1.
Proof.
  unfold spiCheckParity.
  rewrite land_1_odd, u8_b2z, <- Z.bit0_odd, Z.shiftr_spec by lia.
  rewrite (u16_small (Z.land w 0x7FFF)) by (pose proof (low15_range w); lia).
  unfold builtin_parity. rewrite u8_b2z, odd_bits_low15.
  change (odd_bits 16 w) with (xorb (Z.testbit w 15) (odd_bits 15 w)).
  change (0 + 15) with 15.
  destruct (Z.testbit w 15), (odd_bits 15 w); reflexivity.
Qed.

Lemma testbit_flip_bit w i j :
  0 <= i -> 0 <= j -> Z.testbit (flip_bit w i) j = xorb (Z.testbit w j) (j =? i).
Proof.
  intros Hi Hj. unfold flip_bit. rewrite Z.lxor_spec. f_equal.
  rewrite Z.shiftl_spec by lia.
  destruct (Z.eqb_spec j i) as [->|Hne].
  - rewrite Z.sub_diag. reflexivity.
  - destruct (Z.lt_ge_cases j i).
    + apply Z.testbit_neg_r. lia.
    + change 1 with (Z.ones 1). apply Z.ones_spec_high. lia.
Qed.

Lemma odd_bits_flip (n : nat) (w i : Z) :
  0 <= i ->
  odd_bits n (flip_bit w i) = xorb (i <? Z.of_nat n) (odd_bits n w).
Proof.
  intros Hi. induction n as [|n IH].
  - cbn [odd_bits]. destruct (Z.ltb_spec i (Z.of_nat 0)); [lia|reflexivity].
  - cbn [odd_bits]. rewrite IH, testbit_flip_bit by lia.
    destruct (Z.eqb_spec (Z.of_nat n) i), (Z.ltb_spec i (Z.of_nat n)),
             (Z.ltb_spec i (Z.of_nat (S n))); try lia;
      destruct (Z.testbit w (Z.of_nat n)), (odd_bits n w); reflexivity.
Qed.

Lemma odd_bits_with_parity v : odd_bits 16 (with_parity v) = false.
Proof.
  unfold with_parity.
  rewrite spiCalcEvenParity_bits by (pose proof (low15_range v); lia).
  change (odd_bits 16 (Z.land v 0x7FFF))
    with (xorb (Z.testbit (Z.land v 0x7FFF) 15) (odd_bits 15 (Z.land v 0x7FFF))).
  rewrite testbit_low15 by lia. change (15 <? 15) with false.
  rewrite andb_false_r, xorb_false_l.
  set (p := odd_bits 15 (Z.land v 0x7FFF)).
  change (odd_bits 16 (Z.lor (Z.land v 0x7FFF) (Z.shiftl (Z.b2z p) 15)))
    with (xorb (Z.testbit (Z.lor (Z.land v 0x7FFF) (Z.shiftl (Z.b2z p) 15)) 15)
               (odd_bits 15 (Z.lor (Z.land v 0x7FFF) (Z.shiftl (Z.b2z p) 15)))).
  rewrite Z.lor_spec, testbit_low15, Z.shiftl_spec by lia.
  change (15 <? 15) with false. rewrite andb_false_r, orb_false_l.
  change (15 - 15) with 0. rewrite Z.b2z_bit0.
  rewrite (odd_bits_ext 15 _ (Z.land v 0x7FFF)).
  - fold p. apply xorb_nilpotent.
  - intros j Hj. rewrite Z.lor_spec, Z.shiftl_spec by lia.
    rewrite (Z.testbit_neg_r _ (j - 15)) by lia. apply orb_false_r.
Qed.


(** C6. Every 16-bit value whose bit 15 is set to the computed even parity
    of its low 15 bits passes [spiCheckParity]; flipping any single bit
    (positions 0 to 15) of a word that passes makes it fail. *)
Theorem parity_valid_and_single_flip_detected :
  (forall v, 0 <= v < 65536 -> spiCheckParity (with_parity v) = 1) /\
  (forall w i, 0 <= w < 65536 -> spiCheckParity w = 1 -> 0 <= i <= 15 ->
               spiCheckParity (flip_bit w i) = 0).
Proof.
  split.
  - intros v _. rewrite spiCheckParity_bits, odd_bits_with_parity. reflexivity.
  - intros w i _ Hvalid Hi. rewrite spiCheckParity_bits in Hvalid |- *.
    rewrite odd_bits_flip by lia.
    destruct (Z.ltb_spec i (Z.of_nat 16)); [|lia].
    destruct (odd_bits 16 w); [discriminate|reflexivity].
Qed.

Lemma parity_valid_and_single_flip_detected_witness :
  spiCheckParity (with_parity 0x2000) = 1 /\
  spiCheckParity (flip_bit 0xA000 3) = 0.
Proof.
  split.
  - apply (proj1 parity_valid_and_single_flip_detected 0x2000). lia.
  - apply (proj2 parity_valid_and_single_flip_detected 0xA000 3);
      [lia|reflexivity|lia].
Defined.

End ParityFacts.

(* ===================================================================== *)
(** * Properties of the driver and the unwrapper *)
(* ===================================================================== *)

Module EncoderFacts.
Import Encoder IntFacts.

(** The bus after one [read]: two more transfers, the command and the
    dummy word logged. *)
Definition spi_after_read (registerAddress : Z) (s : SPIClass) : SPIClass :=
  mkSPI (miso s) (S (S (transfers s)))
        (0x00 :: u16 (Z.lor (u16 (Z.lor 0x4000 registerAddress))
                            (u16 (Z.shiftl (spiCalcEvenParity
                                              (u16 (Z.lor 0x4000 registerAddress))) 0xF)))
              :: mosi s).

Ltac run_monad :=
  cbv beta iota zeta delta
    [read getRawRotation getRotationUnwrapped setZeroPosition getZeroPosition
     error bind ret this modify transfer16 when exec eval incoming
     dev spi miso transfers mosi fst snd negb
     set_errorFlag set_position set_prevRaw set_prevRawinitialized set_revCount
     _cs errorFlag ocfFlag position debug prevRaw prevRawinitialized revCount].

(** What [read] does, in one equation: the flag is decided by the parity
    check alone, because the mask [0x01 >> 14] is zero. *)
Lemma read_run (registerAddress : Z) (w : World) :
  read registerAddress w =
    (u16 (Z.land (incoming w) (Z.lnot 0xC000)),
     mkWorld (set_errorFlag (spiCheckParity (incoming w) =? 0) (dev w))
             (spi_after_read registerAddress (spi w))).
Proof.
  destruct w as [d [rx n tx]]. destruct d as [cs ef ocf pos dbg pr ini rc].
  unfold spi_after_read. run_monad.
  change (Z.shiftr 1 14) with 0. rewrite Z.land_0_r.
  change (truthy 0) with false. cbn [orb].
  destruct (spiCheckParity (u16 (rx (S n))) =? 0); reflexivity.
Qed.

Lemma read_errorFlag_parity_only (registerAddress : Z) (w : World) :
  errorFlag (dev (exec (read registerAddress) w)) = (spiCheckParity (incoming w) =? 0).
Proof. unfold exec. rewrite read_run. reflexivity. Qed.

(** A world whose sensor answers every transfer with the same word. *)
Definition answering (resp : Z) (d : AS5048A) : World :=
  mkWorld d (mkSPI (fun _ => resp) 0 nil).

Definition fresh : AS5048A := mkAS5048A 1 false false 0 false 0 false 0.

(** C1. The response word [0xC000] has its error-indicator bit (bit 14)
    set and a correct parity bit; [read] nevertheless leaves [errorFlag]
    false, so the flag is not raised for a response that fails validation
    through its error bit. *)
Theorem read_error_bit_not_reported :
  Z.testbit 0xC000 14 = true /\
  spiCheckParity 0xC000 = 1 /\
  incoming (answering 0xC000 fresh) = 0xC000 /\
  errorFlag (dev (exec (read AS5048A_ANGLE) (answering 0xC000 fresh))) = false.
Proof. repeat split; reflexivity. Qed.

(** ** The unwrapper as a function of the response word *)

(** The value of the local [raw] after the three substitutions. *)
Definition effective_raw (d : AS5048A) (resp : Z) : Z :=
  let raw := u16 (i16 (u16 (Z.land resp (Z.lnot 0xC000)))) in
  let raw := if spiCheckParity resp =? 0 then prevRaw d else raw in
  let raw := if raw =? 0 then prevRaw d else raw in
  if FULL_SCALE <=? raw then prevRaw d else raw.

(** The revolution count after seeding and wrap detection. *)
Definition next_revCount (d : AS5048A) (raw : Z) : Z :=
  let p := if prevRawinitialized d then prevRaw d else raw in
  let c := if prevRawinitialized d then revCount d else -1 in
  let delta := i16 (raw - p) in
  if HALF_SCALE <? delta then i32 (c - 1)
  else if delta <? - HALF_SCALE then i32 (c + 1)
  else c.

Definition continuous_output (d : AS5048A) (raw rc : Z) : Z :=
  i32 (i32 (i32 (i32 (rc * FULL_SCALE) + raw) - i32 (position d)) - HALF_SCALE).

Lemma getRotationUnwrapped_run (w : World) :
  getRotationUnwrapped w =
    let d := dev w in
    let raw := effective_raw d (incoming w) in
    let rc := next_revCount d raw in
    (continuous_output d raw rc,
     mkWorld (mkAS5048A (_cs d) (spiCheckParity (incoming w) =? 0) (ocfFlag d)
                        (position d) (debug d) raw true rc)
             (spi_after_read AS5048A_ANGLE (spi w))).
Proof.
  unfold getRotationUnwrapped, getRawRotation.
  unfold bind at 1 2. rewrite read_run.
  destruct w as [d [rx n tx]]. destruct d as [cs ef ocf pos dbg pr ini rc].
  unfold effective_raw, next_revCount, continuous_output.
  set (resp := incoming _). set (s' := spi_after_read _ _).
  destruct ini; run_monad;
    destruct (spiCheckParity resp =? 0);
    repeat match goal with
           | |- context [if ?b then _ else _] =>
               lazymatch b with
               | context [if _ then _ else _] => fail
               | _ => destruct b
               end
           end; reflexivity.
Qed.

Lemma dev_after (w : World) :
  dev (exec getRotationUnwrapped w) =
    let d := dev w in
    let raw := effective_raw d (incoming w) in
    mkAS5048A (_cs d) (spiCheckParity (incoming w) =? 0) (ocfFlag d)
              (position d) (debug d) raw true (next_revCount d raw).
Proof. unfold exec. rewrite getRotationUnwrapped_run. reflexivity. Qed.

Lemma eval_after (w : World) :
  eval getRotationUnwrapped w =
    let d := dev w in
    let raw := effective_raw d (incoming w) in
    continuous_output d raw (next_revCount d raw).
Proof. unfold eval. rewrite getRotationUnwrapped_run. reflexivity. Qed.

(** The value returned is determined by the state the call leaves. *)
Lemma eval_from_state_after (w : World) :
  let d' := dev (exec getRotationUnwrapped w) in
  eval getRotationUnwrapped w = continuous_output d' (prevRaw d') (revCount d').
Proof.
  cbv zeta. rewrite eval_after, dev_after. cbv zeta.
  unfold continuous_output. cbn [prevRaw revCount position]. reflexivity.
Qed.

(** A reading that passes the parity check and lies strictly between 0
    and full scale is used as it is. *)
Lemma effective_raw_valid (d : AS5048A) (resp raw : Z) :
  carries resp raw -> 0 < raw < FULL_SCALE -> effective_raw d resp = raw.
Proof.
  unfold FULL_SCALE. intros [Hpar Hraw] Hrange. unfold effective_raw.
  rewrite Hpar, Hraw. change (1 =? 0) with false. cbv iota.
  rewrite i16_small, u16_small by lia.
  destruct (Z.eqb_spec raw 0); [lia|].
  destruct (Z.leb_spec FULL_SCALE raw); [unfold FULL_SCALE in *; lia|reflexivity].
Qed.

(** A reading of zero is replaced by [prevRaw], whatever the parity. *)
Lemma effective_raw_zero (d : AS5048A) (resp : Z) :
  u16 (Z.land resp (Z.lnot 0xC000)) = 0 -> effective_raw d resp = prevRaw d.
Proof.
  intros Hzero. unfold effective_raw. rewrite Hzero.
  change (u16 (i16 0)) with 0.
  destruct (spiCheckParity resp =? 0); cbv iota; try change (0 =? 0) with true;
    cbv iota;
    destruct (prevRaw d =? 0); destruct (FULL_SCALE <=? prevRaw d); reflexivity.
Qed.

Lemma next_revCount_same (d : AS5048A) :
  prevRawinitialized d = true -> next_revCount d (prevRaw d) = revCount d.
Proof.
  intros Hini. unfold next_revCount. rewrite Hini, Z.sub_diag. reflexivity.
Qed.

Lemma next_revCount_first (d : AS5048A) (raw : Z) :
  prevRawinitialized d = false -> next_revCount d raw = -1.
Proof.
  intros Hini. unfold next_revCount. rewrite Hini, Z.sub_diag. reflexivity.
Qed.

(** One step across the wrap boundary, in either direction. *)
Lemma forward_wrap_step (w : World) :
  prevRawinitialized (dev w) = true -> prevRaw (dev w) = 16000 ->
  carries (incoming w) 200 ->
  INT32_MIN <= revCount (dev w) < INT32_MAX ->
  revCount (dev (exec getRotationUnwrapped w)) = revCount (dev w) + 1.
Proof.
  intros Hini Hprev Hresp Hrc. rewrite dev_after. cbv zeta. cbn [revCount].
  rewrite (effective_raw_valid _ _ 200 Hresp) by (unfold FULL_SCALE; lia).
  unfold next_revCount. rewrite Hini, Hprev.
  change (i16 (200 - 16000)) with (-15800).
  change (HALF_SCALE <? -15800) with false.
  change (-15800 <? - HALF_SCALE) with true. cbv iota.
  apply i32_small. unfold INT32_MIN, INT32_MAX in *. lia.
Qed.

Lemma backward_wrap_step (w : World) :
  prevRawinitialized (dev w) = true -> prevRaw (dev w) = 200 ->
  carries (incoming w) 16000 ->
  INT32_MIN < revCount (dev w) <= INT32_MAX ->
  revCount (dev (exec getRotationUnwrapped w)) = revCount (dev w) - 1.
Proof.
  intros Hini Hprev Hresp Hrc. rewrite dev_after. cbv zeta. cbn [revCount].
  rewrite (effective_raw_valid _ _ 16000 Hresp) by (unfold FULL_SCALE; lia).
  unfold next_revCount. rewrite Hini, Hprev.
  change (i16 (16000 - 200)) with 15800.
  change (HALF_SCALE <? 15800) with true. cbv iota.
  apply i32_small. unfold INT32_MIN, INT32_MAX in *. lia.
Qed.

(** A sensor that answers the successive reads with the words of [l]
    (both transfers of a read see the same word), then with zeros. *)
Definition answering_each (l : list Z) (d : AS5048A) : World :=
  mkWorld d (mkSPI (fun k => nth (Nat.div2 k) l 0) 0 nil).

(** C3. Two consecutive valid samples 16000 then 200 raise
    [revolutionCount] by exactly 1 between the first and the second, and
    200 then 16000 lower it by exactly 1, whatever the state before the
    first of them (the count staying inside the range of [int32_t]). *)
Theorem wraparound_steps_by_one (w : World) :
  let w1 := exec getRotationUnwrapped w in
  let w2 := exec getRotationUnwrapped w1 in
  (carries (incoming w) 16000 -> carries (incoming w1) 200 ->
   INT32_MIN <= revCount (dev w1) < INT32_MAX ->
   prevRawinitialized (dev w1) = true /\
   revCount (dev w2) = revCount (dev w1) + 1) /\
  (carries (incoming w) 200 -> carries (incoming w1) 16000 ->
   INT32_MIN < revCount (dev w1) <= INT32_MAX ->
   prevRawinitialized (dev w1) = true /\
   revCount (dev w2) = revCount (dev w1) - 1).
Proof.
  cbv zeta. split; intros H1 H2 Hrc.
  - split; [rewrite dev_after; reflexivity|].
    apply forward_wrap_step; try assumption.
    + rewrite dev_after. reflexivity.
    + rewrite dev_after. cbv zeta. cbn [prevRaw].
      apply (effective_raw_valid _ _ 16000 H1). unfold FULL_SCALE. lia.
  - split; [rewrite dev_after; reflexivity|].
    apply backward_wrap_step; try assumption.
    + rewrite dev_after. reflexivity.
    + rewrite dev_after. cbv zeta. cbn [prevRaw].
      apply (effective_raw_valid _ _ 200 H1). unfold FULL_SCALE. lia.
Qed.

Lemma wraparound_steps_by_one_witness :
  (let w1 := exec getRotationUnwrapped (answering_each (16000 :: 32968 :: nil) fresh) in
   revCount (dev w1) = -1 /\
   revCount (dev (exec getRotationUnwrapped w1)) = revCount (dev w1) + 1) /\
  (let w1 := exec getRotationUnwrapped (answering_each (32968 :: 16000 :: nil) fresh) in
   revCount (dev w1) = -1 /\
   revCount (dev (exec getRotationUnwrapped w1)) = revCount (dev w1) - 1).
Proof.
  split; cbv zeta.
  - split; [reflexivity|].
    apply (proj1 (wraparound_steps_by_one (answering_each (16000 :: 32968 :: nil) fresh)));
      [split; reflexivity | split; reflexivity | vm_compute; split; [discriminate|reflexivity]].
  - split; [reflexivity|].
    apply (proj2 (wraparound_steps_by_one (answering_each (32968 :: 16000 :: nil) fresh)));
      [split; reflexivity | split; reflexivity | vm_compute; split; [reflexivity|discriminate]].
Defined.

(** C4. With zero offset 0, a first-ever sample that passes validation and
    reads 8192 sets [revolutionCount] to -1 and makes
    [getRotationUnwrapped] return -1*16384 + 8192 - 0 - 8192 = -16384. *)
Theorem first_sample_8192 (w : World) :
  prevRawinitialized (dev w) = false ->
  position (dev w) = 0 ->
  carries (incoming w) 8192 ->
  revCount (dev (exec getRotationUnwrapped w)) = -1 /\
  eval getRotationUnwrapped w = -1 * 16384 + 8192 - 0 - 8192 /\
  eval getRotationUnwrapped w = -16384.
Proof.
  intros Hini Hpos Hresp.
  rewrite dev_after, eval_after. cbv zeta. cbn [revCount].
  rewrite (effective_raw_valid _ _ 8192 Hresp) by (unfold FULL_SCALE; lia).
  rewrite (next_revCount_first _ _ Hini). unfold continuous_output. rewrite Hpos.
  repeat split; reflexivity.
Qed.

Lemma first_sample_8192_witness :
  revCount (dev (exec getRotationUnwrapped (answering 0xA000 fresh))) = -1 /\
  eval getRotationUnwrapped (answering 0xA000 fresh) = -1 * 16384 + 8192 - 0 - 8192 /\
  eval getRotationUnwrapped (answering 0xA000 fresh) = -16384.
Proof.
  apply (first_sample_8192 (answering 0xA000 fresh));
    [reflexivity | reflexivity | split; reflexivity].
Defined.

(** C5. In an initialized state a sample whose raw reading is 0 is
    replaced by [prevRaw]: [prevRaw] and [revCount] (and the flag and the
    offset) are what they were before the sample, as if it had been
    omitted, and the value returned is the one the previous sample's call
    returned. *)
Theorem zero_sample_ignored (w : World) :
  prevRawinitialized (dev w) = true ->
  u16 (Z.land (incoming w) (Z.lnot 0xC000)) = 0 ->
  let w' := exec getRotationUnwrapped w in
  effective_raw (dev w) (incoming w) = prevRaw (dev w) /\
  (prevRaw (dev w'), revCount (dev w')) = (prevRaw (dev w), revCount (dev w)) /\
  (prevRawinitialized (dev w'), position (dev w')) =
    (prevRawinitialized (dev w), position (dev w)) /\
  eval getRotationUnwrapped w =
    continuous_output (dev w) (prevRaw (dev w)) (revCount (dev w)) /\
  (forall w0 : World,
      w = exec getRotationUnwrapped w0 ->
      eval getRotationUnwrapped w = eval getRotationUnwrapped w0).
Proof.
  intros Hini Hzero. cbv zeta.
  pose proof (effective_raw_zero (dev w) _ Hzero) as Hraw.
  assert (Hout : eval getRotationUnwrapped w =
                 continuous_output (dev w) (prevRaw (dev w)) (revCount (dev w))).
  { rewrite eval_after. cbv zeta. rewrite Hraw, (next_revCount_same _ Hini).
    reflexivity. }
  split; [exact Hraw|]. rewrite dev_after. cbv zeta.
  cbn [prevRaw revCount prevRawinitialized position].
  rewrite Hraw, (next_revCount_same _ Hini), Hini.
  repeat split; [exact Hout|].
  intros w0 ->. rewrite Hout. symmetry. apply eval_from_state_after.
Qed.

Lemma zero_sample_ignored_witness :
  let w0 := answering_each (16000 :: 0x0000 :: nil) fresh in
  let w := exec getRotationUnwrapped w0 in
  let w' := exec getRotationUnwrapped w in
  (prevRaw (dev w'), revCount (dev w')) = (16000, -1) /\
  eval getRotationUnwrapped w = eval getRotationUnwrapped w0.
Proof.
  cbv zeta.
  pose proof (zero_sample_ignored
                (exec getRotationUnwrapped (answering_each (16000 :: 0x0000 :: nil) fresh))
                eq_refl eq_refl) as H.
  cbv zeta in H. destruct H as (_ & Hstate & _ & _ & Hprev).
  split; [exact Hstate | exact (Hprev _ eq_refl)].
Defined.

Definition steps_by_at_most_one (before after : Z) : Prop :=
  after = before - 1 \/ after = before \/ after = before + 1.

(** C7. A call on an initialized state leaves [revolutionCount]
    decremented by 1, unchanged or incremented by 1 (the count staying
    inside the range of [int32_t]); the very first call sets it to -1. *)
Theorem revCount_moves_by_at_most_one (w : World) :
  let w' := exec getRotationUnwrapped w in
  (prevRawinitialized (dev w) = true ->
   INT32_MIN < revCount (dev w) < INT32_MAX ->
   steps_by_at_most_one (revCount (dev w)) (revCount (dev w')) /\
   Z.abs (revCount (dev w') - revCount (dev w)) <= 1) /\
  (prevRawinitialized (dev w) = false -> revCount (dev w') = -1).
Proof.
  cbv zeta. rewrite dev_after. cbv zeta. cbn [revCount]. split.
  - intros Hini Hrc. unfold steps_by_at_most_one, next_revCount. rewrite Hini.
    set (delta := i16 _).
    destruct (HALF_SCALE <? delta); [|destruct (delta <? - HALF_SCALE)].
    + rewrite i32_small by (unfold INT32_MIN, INT32_MAX in *; lia). lia.
    + rewrite i32_small by (unfold INT32_MIN, INT32_MAX in *; lia). lia.
    + lia.
  - intros Hini. apply next_revCount_first. exact Hini.
Qed.

Lemma revCount_moves_by_at_most_one_witness :
  (let w := exec getRotationUnwrapped (answering_each (16000 :: 32968 :: nil) fresh) in
   steps_by_at_most_one (revCount (dev w)) (revCount (dev (exec getRotationUnwrapped w))) /\
   Z.abs (revCount (dev (exec getRotationUnwrapped w)) - revCount (dev w)) <= 1) /\
  revCount (dev (exec getRotationUnwrapped (answering 0xA000 fresh))) = -1.
Proof.
  split.
  - cbv zeta.
    apply (proj1 (revCount_moves_by_at_most_one
                    (exec getRotationUnwrapped
                          (answering_each (16000 :: 32968 :: nil) fresh))));
      [reflexivity | vm_compute; split; reflexivity].
  - apply (proj2 (revCount_moves_by_at_most_one (answering 0xA000 fresh))).
    reflexivity.
Defined.

(** C10. After [setZeroPosition p] the stored offset is [p] modulo
    0x3FFF = 16383 (not modulo 16384): it lies in [0, 16382], hence below
    16384 and never equal to 16383, and [setZeroPosition 16383] stores 0. *)
Theorem zero_position_modulo_16383 (w : World) (p : Z) :
  0 <= p < 65536 ->
  let z := eval getZeroPosition (exec (setZeroPosition p) w) in
  z = p mod 16383 /\
  0 <= z <= 16382 /\ z < 16384 /\ z <> 16383 /\
  eval getZeroPosition (exec (setZeroPosition 16383) w) = 0 /\
  16383 mod 16384 <> 0.
Proof.
  intros Hp. destruct w as [d s]. run_monad.
  rewrite (u16_small p) by lia.
  rewrite Z.rem_mod_nonneg by lia.
  pose proof (Z.mod_pos_bound p 16383 ltac:(lia)) as Hb.
  change 0x3FFF with 16383.
  rewrite u16_small by lia.
  repeat split; try lia. discriminate.
Qed.

Lemma zero_position_modulo_16383_witness :
  eval getZeroPosition (exec (setZeroPosition 40000) (answering 0 fresh)) = 40000 mod 16383.
Proof.
  apply (zero_position_modulo_16383 (answering 0 fresh) 40000). lia.
Defined.

End EncoderFacts.

(* ===================================================================== *)
(** * Properties: floating-point special cases *)
(* ===================================================================== *)

Module FloatFacts.
Import Float.

Lemma is_zero_eqb (x : spec_float) : is_zero x = SFeqb x zero.
Proof. destruct x as [s|s| |s m e]; try destruct s; reflexivity. Qed.

Lemma fmul_finite_zero (c x : float) :
  is_finite c = true -> is_zero x = true -> is_zero (fmul c x) = true.
Proof. destruct c, x; try discriminate; reflexivity. Qed.

Lemma fadd_zero_zero (x : float) : is_zero x = true -> fadd zero x = zero.
Proof. destruct x as [[]| | |]; try discriminate; reflexivity. Qed.

Lemma fsub_zero_zero (x : float) : is_zero x = true -> fsub zero x = zero.
Proof. destruct x as [[]| | |]; try discriminate; reflexivity. Qed.

Lemma fdiv_zero_nonzero (a0 : float) :
  is_finite a0 = true -> is_zero a0 = false -> is_zero (fdiv zero a0) = true.
Proof. destruct a0; try discriminate; reflexivity. Qed.

End FloatFacts.

(* ===================================================================== *)
(** * Properties of the filter runtime *)
(* ===================================================================== *)

Module FilterFacts.
Import Float Filter FloatFacts.

Definition Zero (x : float) : Prop := is_zero x = true.
Definition Finite (x : float) : Prop := is_finite x = true.

(** A read outside the list yields the inhabitant, which is a zero; no
    such read happens when the four arrays have [SIZE] elements. *)
Lemma lookup_Zero (l : list float) (i : nat) : Forall Zero l -> Zero (l !!! i).
Proof.
  intros Hl. destruct (decide (i < length l)%nat) as [Hlt|Hge].
  - apply Forall_lookup_total_1; assumption.
  - rewrite list_lookup_total_alt, lookup_ge_None_2 by lia. reflexivity.
Qed.

Lemma lookup_Finite (l : list float) (i : nat) : Forall Finite l -> Finite (l !!! i).
Proof.
  intros Hl. destruct (decide (i < length l)%nat) as [Hlt|Hge].
  - apply Forall_lookup_total_1; assumption.
  - rewrite list_lookup_total_alt, lookup_ge_None_2 by lia. reflexivity.
Qed.

Lemma shift_loop_length (i : nat) :
  forall a : list float, length (shift_loop i a) = length a.
Proof.
  induction i as [|i IH]; intros a; cbn [shift_loop]; [reflexivity|].
  rewrite IH. apply length_insert.
Qed.

Lemma shift_loop_Zero (i : nat) :
  forall a : list float, Forall Zero a -> Forall Zero (shift_loop i a).
Proof.
  induction i as [|i IH]; intros a Ha; cbn [shift_loop]; [exact Ha|].
  apply IH, Forall_insert; [exact Ha|]. apply lookup_Zero, Ha.
Qed.

Section ZeroInput.

Variable SIZE : nat.

Lemma forced_sum_zero (b x : list float) :
  Forall Finite b -> Forall Zero x -> forced_sum SIZE b x zero = zero.
Proof.
  intros Hb Hx. unfold forced_sum. induction (seq 0 SIZE) as [|i l IH].
  - reflexivity.
  - cbn [foldl]. rewrite fadd_zero_zero; [exact IH|].
    apply fmul_finite_zero; [apply lookup_Finite, Hb | apply lookup_Zero, Hx].
Qed.

Lemma natural_sum_zero (a y : list float) :
  Forall Finite a -> Forall Zero y -> natural_sum SIZE a y zero = zero.
Proof.
  intros Ha Hy. unfold natural_sum. induction (seq 0 (SIZE - 1)) as [|i l IH].
  - reflexivity.
  - cbn [foldl]. rewrite fsub_zero_zero; [exact IH|].
    apply fmul_finite_zero; [apply lookup_Finite, Ha | apply lookup_Zero, Hy].
Qed.

(** The state of a filter that has seen nothing but zeros. *)
Record quiescent (f : DiscreteFilter) : Prop := mkQuiescent {
  q_natural_finite : Forall Finite (naturalResponseCoefficients f);
  q_forced_finite : Forall Finite (forcedResponseCoefficients f);
  q_leading : is_zero (naturalResponseCoefficients f !!! 0%nat) = false;
  q_outputs : Forall Zero (naturalResponse f);
  q_inputs : Forall Zero (forcedResponse f)
}.

Lemma filterData_quiescent (f : DiscreteFilter) (dat : float) :
  quiescent f -> Zero dat ->
  Zero (fst (filterData SIZE f dat)) /\ quiescent (snd (filterData SIZE f dat)).
Proof.
  intros [Ha Hb Ha0 Hy Hx] Hdat. unfold filterData. cbv zeta. cbn [fst snd].
  assert (Hx' : Forall Zero (<[0%nat := dat]> (shift_loop (SIZE - 1) (forcedResponse f)))).
  { apply Forall_insert; [apply shift_loop_Zero, Hx | exact Hdat]. }
  assert (Hsum : Zero (fdiv (weighted_sum SIZE f
                               (<[0%nat := dat]> (shift_loop (SIZE - 1) (forcedResponse f))))
                            (naturalResponseCoefficients f !!! 0%nat))).
  { unfold weighted_sum. rewrite forced_sum_zero, natural_sum_zero by assumption.
    apply fdiv_zero_nonzero; [apply lookup_Finite, Ha | exact Ha0]. }
  assert (Hy' : Forall Zero (<[0%nat := fdiv (weighted_sum SIZE f
                               (<[0%nat := dat]> (shift_loop (SIZE - 1) (forcedResponse f))))
                            (naturalResponseCoefficients f !!! 0%nat)]>
                              (shift_loop (SIZE - 1) (naturalResponse f)))).
  { apply Forall_insert; [apply shift_loop_Zero, Hy | exact Hsum]. }
  split; [apply lookup_Zero, Hy' | constructor; assumption].
Qed.

Lemma feed_quiescent (samples : list float) :
  forall f : DiscreteFilter,
  quiescent f -> Forall Zero samples ->
  Forall Zero (fst (feed SIZE f samples)) /\ quiescent (snd (feed SIZE f samples)) /\
  length (fst (feed SIZE f samples)) = length samples.
Proof.
  induction samples as [|dat rest IH]; intros f Hq Hs.
  - cbn. split; [constructor | split; [exact Hq | reflexivity]].
  - apply Forall_cons in Hs as [Hdat Hrest]. cbn [feed].
    destruct (filterData_quiescent f dat Hq Hdat) as [Hy Hq'].
    destruct (filterData SIZE f dat) as [y f'].
    destruct (IH f' Hq' Hrest) as (Hys & Hq'' & Hlen).
    destruct (feed SIZE f' rest) as [ys f'']. cbn [fst snd length] in *.
    split; [constructor; assumption | split; [exact Hq'' | congruence]].
Qed.

End ZeroInput.

(** C8, as amended.  For every coefficient set of finite values (no NaN,
    no infinity) whose leading natural-response coefficient (index 0) is
    nonzero, an all-zero input sequence fed right after [reset] gives one
    output per input, each a zero, and leaves both history arrays all
    zero. *)
Theorem zero_input_zero_output
    (SIZE : nat) (f : DiscreteFilter) (samples : list float) :
  Forall Finite (naturalResponseCoefficients f) ->
  Forall Finite (forcedResponseCoefficients f) ->
  is_zero (naturalResponseCoefficients f !!! 0%nat) = false ->
  Forall Zero samples ->
  let run := feed SIZE (snd (reset SIZE f)) samples in
  length (fst run) = length samples /\
  Forall Zero (fst run) /\
  Forall Zero (naturalResponse (snd run)) /\
  Forall Zero (forcedResponse (snd run)).
Proof.
  intros Ha Hb Ha0 Hs. cbv zeta.
  assert (Hq : quiescent (snd (reset SIZE f))).
  { unfold reset. cbn [snd]. constructor; cbn; try assumption;
      apply Forall_replicate; reflexivity. }
  destruct (feed_quiescent SIZE samples _ Hq Hs) as (Hys & [_ _ _ Hy Hx] & Hlen).
  repeat split; assumption.
Qed.

Definition lowpass_example : DiscreteFilter :=
  mkDiscreteFilter [float_lit 1 0; float_lit (-1) (-1)]
                   [float_lit 1 (-2); float_lit 1 (-2)]
                   [float_lit 3 0; float_lit 5 0] [float_lit 7 0; float_lit 9 0].

Lemma zero_input_zero_output_witness :
  let run := feed 2 (snd (reset 2 lowpass_example)) [zero; zero; zero] in
  length (fst run) = 3%nat /\
  Forall Zero (fst run) /\
  Forall Zero (naturalResponse (snd run)) /\
  Forall Zero (forcedResponse (snd run)).
Proof.
  apply (zero_input_zero_output 2 lowpass_example [zero; zero; zero]).
  - repeat constructor.
  - repeat constructor.
  - reflexivity.
  - repeat constructor.
Defined.

(** C8 as the specification words it: only the leading coefficient is
    constrained. *)
Definition zero_in_zero_out_for_nonzero_leading : Prop :=
  forall (SIZE : nat) (f : DiscreteFilter) (samples : list float),
    is_zero (naturalResponseCoefficients f !!! 0%nat) = false ->
    Forall Zero samples ->
    Forall Zero (fst (feed SIZE (snd (reset SIZE f)) samples)).

(** With the coefficient set a = [1], b = [+infinity] the first
    [filterData(0)] after [reset] returns NaN: infinity times zero. *)
Lemma infinite_coefficient_breaks_zero_output :
  fst (filterData 1 (snd (reset 1 (mkDiscreteFilter [float_lit 1 0] [S754_infinity false]
                                                   [zero] [zero]))) zero) = S754_nan /\
  ~ zero_in_zero_out_for_nonzero_leading.
Proof.
  split; [reflexivity|].
  intros H.
  specialize (H 1%nat (mkDiscreteFilter [float_lit 1 0] [S754_infinity false] [zero] [zero])
                [zero] eq_refl ltac:(repeat constructor)).
  apply Forall_cons in H as [H _]. discriminate H.
Qed.

End FilterFacts.

(* ===================================================================== *)
(** * Properties of the stored coefficients *)
(* ===================================================================== *)

Module DesignFacts.
Import Float Filter Design.

Section Expansion.

Variables (ORDER : nat) (zeros : list complex).

Lemma expand_step_length (coefficients nc : list complex) (i j : nat) :
  length (expand_step zeros coefficients i nc j) = length nc.
Proof. unfold expand_step. rewrite !length_insert. reflexivity. Qed.

(** The inner loop run for [k] indices keeps the length and leaves every
    element above index [k] as it was. *)
Lemma expand_steps_above (coefficients nc : list complex) (i k : nat) :
  length (foldl (expand_step zeros coefficients i) nc (seq 0 k)) = length nc /\
  forall m, (k < m)%nat ->
    foldl (expand_step zeros coefficients i) nc (seq 0 k) !!! m = nc !!! m.
Proof.
  induction k as [|k [IHlen IHabove]].
  - split; reflexivity.
  - rewrite seq_S, foldl_snoc. cbn [Nat.add]. split.
    + rewrite expand_step_length. exact IHlen.
    + intros m Hm. unfold expand_step.
      rewrite !list_lookup_total_insert_ne by lia. apply IHabove. lia.
Qed.

Lemma expand_factor_length (coefficients : list complex) (i : nat) :
  length (expand_factor ORDER zeros coefficients i) = (ORDER + 1)%nat.
Proof.
  unfold expand_factor.
  rewrite (proj1 (expand_steps_above coefficients _ i (i + 1))).
  apply length_replicate.
Qed.

(** Multiplying by a factor moves the leading 1 one index up. *)
Lemma expand_factor_leading (coefficients : list complex) (i : nat) :
  (i < ORDER)%nat -> coefficients !!! i = C1 ->
  expand_factor ORDER zeros coefficients i !!! (i + 1)%nat = C1.
Proof.
  intros Hi Hlead. unfold expand_factor.
  replace (i + 1)%nat with (S i) by lia.
  rewrite seq_S, foldl_snoc. cbn [Nat.add].
  destruct (expand_steps_above coefficients (replicate (ORDER + 1) C0) i i)
    as [Hlen Habove].
  set (nc := foldl _ _ _) in *. rewrite length_replicate in Hlen.
  unfold expand_step. replace (i + 1)%nat with (S i) by lia.
  rewrite list_lookup_total_insert_eq by (rewrite length_insert; lia).
  rewrite list_lookup_total_insert_ne by lia.
  rewrite Habove by lia. rewrite lookup_total_replicate_2 by lia.
  rewrite Hlead. reflexivity.
Qed.

Lemma expand_outer_invariant (n : nat) :
  (n <= ORDER)%nat ->
  let coefficients :=
    foldl (expand_factor ORDER zeros) (C1 :: replicate ORDER C0) (seq 0 n) in
  length coefficients = (ORDER + 1)%nat /\ coefficients !!! n = C1.
Proof.
  cbv zeta. induction n as [|n IH]; intros Hn.
  - cbn [seq foldl length]. rewrite length_replicate. split; [lia|reflexivity].
  - rewrite seq_S, foldl_snoc. cbn [Nat.add].
    destruct IH as [IHlen IHlead]; [lia|]. split.
    + apply expand_factor_length.
    + replace (S n) with (n + 1)%nat by lia.
      apply expand_factor_leading; [lia | exact IHlead].
Qed.

Lemma expandPolynomial_length : length (expandPolynomial ORDER zeros) = (ORDER + 1)%nat.
Proof.
  unfold expandPolynomial. cbv zeta. rewrite length_fmap.
  apply (expand_outer_invariant ORDER). lia.
Qed.

(** The expanded polynomial is monic: its last entry is exactly 1.0. *)
Lemma expandPolynomial_leading : expandPolynomial ORDER zeros !!! ORDER = double_lit 1 0.
Proof.
  unfold expandPolynomial. cbv zeta.
  destruct (expand_outer_invariant ORDER (le_n _)) as [Hlen Hlead].
  rewrite (@list_lookup_total_fmap _ _ real complex_inhabited spec_float_inhabited)
    by lia.
  rewrite Hlead. reflexivity.
Qed.

End Expansion.

Section Storage.

Variables (COEFFICIENTS : nat) (a b : list double).

Lemma store_reversed_prefix (arrays : Coefficients) (n : nat) :
  (n <= COEFFICIENTS)%nat ->
  length (coef_naturalResponseCoefficients arrays) = COEFFICIENTS ->
  let stored :=
    foldl (fun arrays i =>
             mkCoefficients
               (<[(COEFFICIENTS - i - 1)%nat := double_to_float (a !!! i)]>
                  (coef_naturalResponseCoefficients arrays))
               (<[(COEFFICIENTS - i - 1)%nat := double_to_float (b !!! i)]>
                  (coef_forcedResponseCoefficients arrays)))
          arrays (seq 0 n) in
  length (coef_naturalResponseCoefficients stored) = COEFFICIENTS /\
  forall i, (i < n)%nat ->
    coef_naturalResponseCoefficients stored !!! (COEFFICIENTS - i - 1)%nat =
      double_to_float (a !!! i).
Proof.
  intros Hn Hlen. cbv zeta. induction n as [|n IH].
  - split; [exact Hlen | intros i Hi; lia].
  - rewrite seq_S, foldl_snoc. cbn [Nat.add coef_naturalResponseCoefficients].
    destruct IH as [IHlen IHget]; [lia|]. split.
    + rewrite length_insert. exact IHlen.
    + intros i Hi. destruct (decide (i = n)) as [->|Hne].
      * apply list_lookup_total_insert_eq. lia.
      * rewrite list_lookup_total_insert_ne by lia. apply IHget. lia.
Qed.

(** After the loop, index [COEFFICIENTS - i - 1] holds [a[i]]. *)
Lemma store_reversed_natural (arrays : Coefficients) (i : nat) :
  length (coef_naturalResponseCoefficients arrays) = COEFFICIENTS ->
  (i < COEFFICIENTS)%nat ->
  coef_naturalResponseCoefficients (store_reversed COEFFICIENTS a b arrays)
    !!! (COEFFICIENTS - i - 1)%nat = double_to_float (a !!! i).
Proof.
  intros Hlen Hi.
  apply (store_reversed_prefix arrays COEFFICIENTS (le_n _) Hlen). exact Hi.
Qed.

End Storage.

(** [filterData] returns the weighted sum divided by the coefficient at
    index 0 of the natural-response coefficients. *)
Lemma filterData_divides_by_index_0 (SIZE : nat) (f : DiscreteFilter) (dat : float) :
  (1 <= SIZE)%nat -> length (naturalResponse f) = SIZE ->
  fst (filterData SIZE f dat) =
    fdiv (weighted_sum SIZE f (<[0%nat := dat]> (shift_loop (SIZE - 1) (forcedResponse f))))
         (naturalResponseCoefficients f !!! 0%nat).
Proof.
  intros HSIZE Hlen. unfold filterData. cbv zeta. cbn [fst].
  apply list_lookup_total_insert_eq.
  rewrite FilterFacts.shift_loop_length. lia.
Qed.

Lemma butterworth_store_entries
    (N : nat) (zZeros zPoles : list complex) (scale : double) (arrays : Coefficients) :
  (1 <= N)%nat ->
  length (coef_naturalResponseCoefficients arrays) = N ->
  let c := butterworth_store N zZeros zPoles scale arrays in
  coef_naturalResponseCoefficients c !!! (N - 1)%nat =
    double_to_float (expandPolynomial (N - 1) zPoles !!! 0%nat) /\
  coef_naturalResponseCoefficients c !!! 0%nat = float_lit 1 0.
Proof.
  intros HN Harr. cbv zeta. unfold butterworth_store. cbv zeta. split.
  - replace (N - 1)%nat with (N - 0 - 1)%nat at 1 by lia.
    apply store_reversed_natural; [assumption | lia].
  - replace 0%nat with (N - (N - 1) - 1)%nat at 1 by lia.
    rewrite store_reversed_natural by (assumption || lia).
    rewrite expandPolynomial_leading. reflexivity.
Qed.

Lemma getNumCoefficients_pos (ORDER : nat) (type : FilterType) :
  (1 <= getNumCoefficients ORDER type)%nat.
Proof. unfold getNumCoefficients. lia. Qed.

(** C2, as amended.  In the coefficients [butterworth] returns,
    [naturalResponseCoefficients[N-1]] is the constant term [a[0]] of the
    expanded pole polynomial (put last by the reversal), while index 0
    holds the polynomial's leading coefficient, which is exactly 1 and so
    nonzero; the divisor [filterData] uses to normalize each output sample
    is the entry at index 0.  This holds whatever the math library
    returns for [tan], [cos], [sin] and [atan2]. *)
Theorem butterworth_divisor_is_leading_coefficient
    (tan cos sin : double -> double) (atan2 : double -> double -> double)
    (ORDER : nat) (type : FilterType) (wc Ts wh : double)
    (arrays : Coefficients) (f : DiscreteFilter) (dat : float) :
  let N := getNumCoefficients ORDER type in
  let c := butterworth tan cos sin atan2 ORDER type wc Ts wh arrays in
  length (coef_naturalResponseCoefficients arrays) = N ->
  length (naturalResponse f) = N ->
  naturalResponseCoefficients f = coef_naturalResponseCoefficients c ->
  coef_naturalResponseCoefficients c !!! (N - 1)%nat =
    double_to_float (butterworth_a tan cos sin atan2 ORDER type wc Ts wh !!! 0%nat) /\
  coef_naturalResponseCoefficients c !!! 0%nat = float_lit 1 0 /\
  is_zero (coef_naturalResponseCoefficients c !!! 0%nat) = false /\
  fst (filterData N f dat) =
    fdiv (weighted_sum N f (<[0%nat := dat]> (shift_loop (N - 1) (forcedResponse f))))
         (coef_naturalResponseCoefficients c !!! 0%nat).
Proof.
  cbv zeta. intros Harr Hhist Hcoef.
  pose proof (getNumCoefficients_pos ORDER type) as HN.
  unfold butterworth in *. cbv zeta in *.
  set (N := getNumCoefficients ORDER type) in *.
  set (zPoles := design_zPoles _ _ _ _ _ _ _ _) in *.
  set (zZeros := design_zZeros _ _ _ _ _ _ _) in *.
  set (scale := ddiv _ _) in *.
  destruct (butterworth_store_entries N zZeros zPoles scale arrays HN Harr)
    as [Hlast Hlead].
  split; [exact Hlast|]. split; [exact Hlead|]. split.
  - transitivity (is_zero (float_lit 1 0)); [f_equal; exact Hlead | reflexivity].
  - rewrite <- Hcoef. apply filterData_divides_by_index_0; assumption.
Qed.

(** A stand-in for the math library, enough to run the first-order
    low-pass design on an example: [cos] and [sin] exact at 0 and taking
    any other argument for pi ([cos] -1, [sin] rounded to 0), [tan] by its
    first-order approximation. *)
Definition coarse_tan (x : double) : double := x.
Definition coarse_cos (x : double) : double :=
  if is_zero x then double_lit 1 0 else double_lit (-1) 0.
Definition coarse_sin (x : double) : double := zero.
Definition coarse_atan2 (y x : double) : double := zero.

Definition coarse_lowpass : Coefficients :=
  butterworth coarse_tan coarse_cos coarse_sin coarse_atan2
              1 LOWPASS (double_lit 6 0) (double_lit 1 0) zero
              (mkCoefficients [zero; zero] [zero; zero]).

Lemma butterworth_divisor_is_leading_coefficient_witness :
  coef_naturalResponseCoefficients coarse_lowpass = [float_lit 1 0; float_lit 1 (-1)] /\
  coef_naturalResponseCoefficients coarse_lowpass !!! 0%nat = float_lit 1 0 /\
  fst (filterData 2 (DiscreteFilter_new 2 coarse_lowpass) (float_lit 1 0)) =
    fdiv (weighted_sum 2 (DiscreteFilter_new 2 coarse_lowpass)
            (<[0%nat := float_lit 1 0]>
               (shift_loop (2 - 1) (forcedResponse (DiscreteFilter_new 2 coarse_lowpass)))))
         (coef_naturalResponseCoefficients coarse_lowpass !!! 0%nat).
Proof.
  pose proof (butterworth_divisor_is_leading_coefficient
                coarse_tan coarse_cos coarse_sin coarse_atan2
                1 LOWPASS (double_lit 6 0) (double_lit 1 0) zero
                (mkCoefficients [zero; zero] [zero; zero])
                (DiscreteFilter_new 2 coarse_lowpass) (float_lit 1 0)
                eq_refl eq_refl eq_refl) as (_ & Hlead & _ & Hdiv).
  split; [reflexivity|]. split; [exact Hlead | exact Hdiv].
Defined.

(** A first-order design: one zero at z = -1, one pole at z = 0.5 and the
    gain 0.25 that makes the response at DC equal to 1. *)
Definition first_order_example : Coefficients :=
  butterworth_store 2 [mkComplex (double_lit (-1) 0) zero]
                      [mkComplex (double_lit 1 (-1)) zero]
                      (double_lit 1 (-2))
                      (mkCoefficients [zero; zero] [zero; zero]).

(** C2 as the specification words it, for one coefficient set and one
    sample:
    the entry at index [N-1] is nonzero and is the divisor of the output. *)
Definition last_entry_is_divisor (N : nat) (c : Coefficients) (dat : float) : Prop :=
  let f := DiscreteFilter_new N c in
  is_zero (coef_naturalResponseCoefficients c !!! (N - 1)%nat) = false /\
  fst (filterData N f dat) =
    fdiv (weighted_sum N f (<[0%nat := dat]> (shift_loop (N - 1) (forcedResponse f))))
         (coef_naturalResponseCoefficients c !!! (N - 1)%nat).

(** For the first-order example the stored vector is [1; -0.5]: the
    first output for the input 1 is 0.25 (the sum divided by the entry at
    index 0), not -0.5 (the sum divided by the entry at index N-1).  The
    same happens for the design run with the stand-in math library, whose
    stored vector is [1; 0.5]. *)
Lemma last_entry_is_not_the_divisor :
  coef_naturalResponseCoefficients first_order_example =
    [float_lit 1 0; float_lit (-1) (-1)] /\
  fst (filterData 2 (DiscreteFilter_new 2 first_order_example) (float_lit 1 0)) =
    float_lit 1 (-2) /\
  ~ last_entry_is_divisor 2 first_order_example (float_lit 1 0) /\
  ~ last_entry_is_divisor 2 coarse_lowpass (float_lit 1 0).
Proof.
  split; [reflexivity|]. split; [reflexivity|]. split.
  - intros [_ H]. vm_compute in H. discriminate H.
  - intros [_ H]. vm_compute in H. discriminate H.
Qed.

End DesignFacts.

(* ===================================================================== *)
(** * Properties: the gain of a first-order design *)
(* ===================================================================== *)

Module GainFacts.
Import Float Filter Design.

(** The parameters of the example: [Ts = 1.0 / 1000] and
    [wc = 2 * M_PI * 10]. *)
Definition Ts : double := ddiv (double_lit 1 0) (double_lit 1000 0).
Definition wc : double := dmul (dmul (double_lit 2 0) M_PI) (double_lit 10 0).

(** The argument [wc * (Ts / 2)] of the pre-warping tangent, about
    0.0314159. *)
Definition half_angle : double := dmul wc (ddiv Ts (double_lit 2 0)).

(** The binary64 values nearest to tan(0.0314159...) = 0.0314262... and to
    sin([M_PI]) = 1.2246...e-16. *)
Definition tan_half_angle : double := S754_finite false 0x10171a81c87e4a (-57).
Definition sin_M_PI : double := S754_finite false 0x11a62633145c07 (-105).

(** [x] has the sign and the exponent of [ref], and its significand is at
    most [n] units in the last place away from that of [ref]. *)
Definition within_ulps (n : Z) (x ref : double) : bool :=
  match x, ref with
  | S754_finite s m e, S754_finite s' m' e' =>
      Bool.eqb s s' && (e =? e') && (Z.abs (Zpos m - Zpos m') <=? n)
  | _, _ => false
  end.

(** The magnitude of the frequency response of a stored filter at [w], as
    the program's own [evaluateFrequencyResponse] and [complexAbs] compute
    it from the two stored vectors. *)
Definition measured_gain (cos sin : double -> double) (c : Coefficients)
    (w Ts : double) : double :=
  complexAbs (evaluateFrequencyResponse cos sin (coef_forcedResponseCoefficients c)
                (coef_naturalResponseCoefficients c) w Ts).

(** [|g - 1| <= 2^-20] for a [double]. *)
Definition near_one (g : double) : bool :=
  SFleb (double_lit (2 ^ 20 - 1) (-20)) g && SFleb g (double_lit (2 ^ 20 + 1) (-20)).

(** The rational number a finite [float] stands for. *)
Definition rational (x : spec_float) : QArith_base.Q :=
  match x with
  | S754_finite s m e =>
      QArith_base.Qmult (QArith_base.inject_Z (cond_Zopp s (Zpos m)))
                        (QArith_base.Qpower (QArith_base.inject_Z 2) e)
  | _ => QArith_base.inject_Z 0
  end.

(** The response of the stored filter in exact arithmetic at z = 1 (DC)
    and at z = -1 (Nyquist): the quotient of the sums of the
    coefficients, taken with alternating signs at Nyquist. *)
Definition signed_sum (alternate : bool) (l : list float) : QArith_base.Q :=
  foldl (fun acc k =>
           let term := rational (l !!! k) in
           if alternate && Nat.odd k then QArith_base.Qminus acc term
           else QArith_base.Qplus acc term)
        (QArith_base.inject_Z 0) (seq 0 (length l)).

Definition exact_response (alternate : bool) (c : Coefficients) : QArith_base.Q :=
  QArith_base.Qdiv (signed_sum alternate (coef_forcedResponseCoefficients c))
                   (signed_sum alternate (coef_naturalResponseCoefficients c)).

(** [| |g| - 1 | <= 2^-20] for a rational. *)
Definition near_one_exact (g : QArith_base.Q) : bool :=
  QArith_base.Qle_bool
    (Qabs.Qabs (QArith_base.Qminus (Qabs.Qabs g) (QArith_base.inject_Z 1)))
    (QArith_base.Qmake 1 (2 ^ 20)).

(** The two vectors stored for the low-pass filter, [1, -0.93906248] and
    [0.03046875, 0.03046875] to eight places, and for the high-pass
    filter, [1, -0.93906248] and [0.96953124, -0.96953124]. *)
Definition lowpass_stored : Coefficients :=
  mkCoefficients [S754_finite false 8388608 (-23); S754_finite true 15754854 (-24)]
                 [S754_finite false 16357784 (-29); S754_finite false 16357784 (-29)].

Definition highpass_stored : Coefficients :=
  mkCoefficients [S754_finite false 8388608 (-23); S754_finite true 15754854 (-24)]
                 [S754_finite false 16266035 (-24); S754_finite true 16266035 (-24)].

Lemma within_ulps_2 (x : double) (s : bool) (m : positive) (e : Z) :
  2 < Zpos m ->
  within_ulps 2 x (S754_finite s m e) = true ->
  exists k : Z, (k = -2 \/ k = -1 \/ k = 0 \/ k = 1 \/ k = 2) /\
                x = S754_finite s (Z.to_pos (Zpos m + k)) e.
Proof.
  intros Hm H. destruct x as [| | |s' m' e']; try discriminate H.
  cbn [within_ulps] in H.
  apply andb_prop in H as [H Hk]. apply andb_prop in H as [Hs He].
  apply Bool.eqb_prop in Hs. apply Z.eqb_eq in He. apply Z.leb_le in Hk. subst s' e'.
  exists (Zpos m' - Zpos m). split; [lia|].
  f_equal. replace (Zpos m + (Zpos m' - Zpos m)) with (Zpos m') by lia. reflexivity.
Qed.

(** A math library given by a table: the values at the points the two
    designs evaluate, with [t] for the tangent and [s] for sin([M_PI]). *)
Definition table_tan (t x : double) : double :=
  if SFeqb x half_angle then t else zero.
Definition table_cos (x : double) : double :=
  if SFeqb x M_PI then double_lit (-1) 0 else double_lit 1 0.
Definition table_sin (s x : double) : double :=
  if SFeqb x M_PI then s else zero.
Definition table_atan2 (y x : double) : double := zero.

(** Every call of the library function [f] on a constant argument for
    which a hypothesis gives the value is replaced by that value; every
    call of a table is replaced by its entry. *)
Ltac value_at f :=
  repeat match goal with
         | H : f ?c = ?v |- context [f ?x] =>
             let v' := eval vm_compute in v in
             let E := fresh in
             assert (E : f x = v')
               by (transitivity (f c);
                   [apply f_equal; vm_compute; reflexivity | exact H]);
             rewrite E; clear E
         end.

Ltac entry_at g :=
  repeat match goal with
         | |- context [g ?x] =>
             let v := eval vm_compute in (g x) in
             let E := fresh in
             assert (E : g x = v) by (vm_compute; reflexivity);
             rewrite E; clear E
         end.

(** The calls of the library functions are brought to the surface by
    unfolding the design down to the arithmetic. *)
Ltac expose :=
  cbv beta iota zeta delta
    [butterworth butterworth_store store_reversed expandPolynomial expand_factor
     expand_step design_zPoles design_zZeros design_reference prototype_poles
     map_s2z prewarp s2z evaluateFrequencyResponse response_term measured_gain
     lowpass_stored highpass_stored
     foldl seq length Nat.add Nat.sub Nat.mul replicate
     insert list_insert lookup_total list_lookup_total fmap list_fmap
     coef_naturalResponseCoefficients coef_forcedResponseCoefficients].

Ltac by_table tan cos sin t s :=
  expose; value_at cos; value_at sin; value_at tan;
  entry_at table_cos; entry_at (table_sin s); entry_at (table_tan t);
  reflexivity.

(** The results of the two designs depend on the library at five points
    only. *)
Lemma design_by_table
    (tan cos sin : double -> double) (atan2 : double -> double -> double)
    (type : FilterType) (arrays : Coefficients) :
  cos zero = double_lit 1 0 ->
  sin zero = zero ->
  cos M_PI = double_lit (-1) 0 ->
  type = LOWPASS \/ type = HIGHPASS ->
  butterworth tan cos sin atan2 1 type wc Ts zero arrays =
  butterworth (table_tan (tan half_angle)) table_cos (table_sin (sin M_PI)) atan2
              1 type wc Ts zero arrays.
Proof.
  intros Hcos0 Hsin0 Hcospi Htype.
  remember (tan half_angle) as t eqn:Htan. symmetry in Htan.
  remember (sin M_PI) as s eqn:Hsinpi. symmetry in Hsinpi.
  destruct Htype as [-> | ->]; unfold butterworth.
  - change (getNumCoefficients 1 LOWPASS) with 2%nat. expose.
    change (getNumCoefficients 1 LOWPASS) with 2%nat.
    by_table tan cos sin t s.
  - change (getNumCoefficients 1 HIGHPASS) with 2%nat. expose.
    change (getNumCoefficients 1 HIGHPASS) with 2%nat.
    by_table tan cos sin t s.
Qed.

Lemma measured_by_table (cos sin : double -> double) (c : Coefficients) (w : double) :
  cos zero = double_lit 1 0 ->
  sin zero = zero ->
  cos M_PI = double_lit (-1) 0 ->
  c = lowpass_stored /\ w = zero \/ c = highpass_stored /\ w = ddiv M_PI Ts ->
  measured_gain cos sin c w Ts = measured_gain table_cos (table_sin (sin M_PI)) c w Ts.
Proof.
  intros Hcos0 Hsin0 Hcospi Hc.
  remember (sin M_PI) as s eqn:Hsinpi. symmetry in Hsinpi.
  destruct Hc as [[-> ->] | [-> ->]].
  - by_table cos cos sin zero s.
  - by_table cos cos sin zero s.
Qed.

Ltac five_cases H :=
  destruct H as [H|[H|[H|[H|H]]]]; subst.

(** C9. For ORDER 1, wc = 2*pi*10 and Ts = 1/1000, with a math library
    that is exact at 0, returns -1 for cos([M_PI]) and is within two units
    in the last place of the correctly rounded values of the pre-warping
    tangent and of sin([M_PI]): [butterworth] stores [lowpass_stored] for
    LOWPASS and [highpass_stored] for HIGHPASS.  The magnitude of the
    frequency response of the stored low-pass filter at omega = 0, as
    [evaluateFrequencyResponse] and [complexAbs] compute it, is within
    2^-20 of 1, and that of the stored high-pass filter at the Nyquist
    frequency [M_PI / Ts] is the double 1.0.  In exact arithmetic the gain
    of the stored low-pass filter at z = 1 is within 2^-20 of 1 and the
    gain of the stored high-pass filter at z = -1 is 1. *)
Theorem unity_gain_at_reference
    (tan cos sin : double -> double) (atan2 : double -> double -> double)
    (arrays : Coefficients) :
  within_ulps 2 (tan half_angle) tan_half_angle = true ->
  cos zero = double_lit 1 0 ->
  sin zero = zero ->
  cos M_PI = double_lit (-1) 0 ->
  within_ulps 2 (sin M_PI) sin_M_PI = true ->
  length (coef_naturalResponseCoefficients arrays) = 2%nat ->
  length (coef_forcedResponseCoefficients arrays) = 2%nat ->
  let lowpass := butterworth tan cos sin atan2 1 LOWPASS wc Ts zero arrays in
  let highpass := butterworth tan cos sin atan2 1 HIGHPASS wc Ts zero arrays in
  lowpass = lowpass_stored /\
  highpass = highpass_stored /\
  near_one (measured_gain cos sin lowpass zero Ts) = true /\
  measured_gain cos sin highpass (ddiv M_PI Ts) Ts = double_lit 1 0 /\
  near_one_exact (exact_response false lowpass) = true /\
  QArith_base.Qeq (exact_response true highpass) (QArith_base.inject_Z 1).
Proof.
  intros Htan Hcos0 Hsin0 Hcospi Hsinpi Hn Hf. cbv zeta.
  destruct arrays as [n f]. cbn in Hn, Hf.
  destruct n as [|n0 [|n1 [|? ?]]]; try discriminate Hn.
  destruct f as [|f0 [|f1 [|? ?]]]; try discriminate Hf.
  rewrite !(design_by_table tan cos sin atan2 _ _ Hcos0 Hsin0 Hcospi) by auto.
  apply within_ulps_2 in Htan as (k1 & Hk1 & Ht); [|reflexivity].
  apply within_ulps_2 in Hsinpi as (k2 & Hk2 & Hs); [|reflexivity].
  rewrite Ht, Hs.
  assert (L : butterworth
                (table_tan (S754_finite false (Z.to_pos (4529002241359434 + k1)) (-57)))
                table_cos
                (table_sin (S754_finite false (Z.to_pos (4967757600021511 + k2)) (-105)))
                atan2 1 LOWPASS wc Ts zero (mkCoefficients [n0; n1] [f0; f1])
              = lowpass_stored).
  { clear Ht Hs. five_cases Hk1; five_cases Hk2; vm_compute; reflexivity. }
  assert (H : butterworth
                (table_tan (S754_finite false (Z.to_pos (4529002241359434 + k1)) (-57)))
                table_cos
                (table_sin (S754_finite false (Z.to_pos (4967757600021511 + k2)) (-105)))
                atan2 1 HIGHPASS wc Ts zero (mkCoefficients [n0; n1] [f0; f1])
              = highpass_stored).
  { clear Ht Hs L. five_cases Hk1; five_cases Hk2; vm_compute; reflexivity. }
  rewrite L, H.
  rewrite (measured_by_table cos sin lowpass_stored zero Hcos0 Hsin0 Hcospi)
    by (left; split; reflexivity).
  rewrite (measured_by_table cos sin highpass_stored (ddiv M_PI Ts) Hcos0 Hsin0 Hcospi)
    by (right; split; reflexivity).
  rewrite Hs. clear Ht Hs L H.
  split; [reflexivity|]. split; [reflexivity|].
  split; [five_cases Hk2; vm_compute; reflexivity|].
  split; [five_cases Hk2; vm_compute; reflexivity|].
  split; vm_compute; reflexivity.
Qed.

Lemma unity_gain_at_reference_witness :
  let tan := table_tan tan_half_angle in
  let sin := table_sin sin_M_PI in
  let arrays := mkCoefficients [zero; zero] [zero; zero] in
  within_ulps 2 (tan half_angle) tan_half_angle = true /\
  within_ulps 2 (sin M_PI) sin_M_PI = true /\
  butterworth tan table_cos sin table_atan2 1 LOWPASS wc Ts zero arrays = lowpass_stored /\
  butterworth tan table_cos sin table_atan2 1 HIGHPASS wc Ts zero arrays = highpass_stored.
Proof.
  cbv zeta.
  pose proof (unity_gain_at_reference
                (table_tan tan_half_angle) table_cos (table_sin sin_M_PI) table_atan2
                (mkCoefficients [zero; zero] [zero; zero])
                ltac:(vm_compute; reflexivity) ltac:(vm_compute; reflexivity)
                ltac:(vm_compute; reflexivity) ltac:(vm_compute; reflexivity)
                ltac:(vm_compute; reflexivity) eq_refl eq_refl)
    as (Hlow & Hhigh & _).
  split; [vm_compute; reflexivity|]. split; [vm_compute; reflexivity|].
  split; [exact Hlow | exact Hhigh].
Defined.

End GainFacts.

(* ===================================================================== *)
(** * Further properties: parity *)
(* ===================================================================== *)

Module ParityMore.
Import IntFacts ParityFacts.

Lemma testbit_above_16 (v j : Z) : 0 <= v < 65536 -> 16 <= j -> Z.testbit v j = false.
Proof.
  intros Hv Hj. destruct (Z.eq_dec v 0) as [->|Hne]; [apply Z.bits_0|].
  apply Z.bits_above_log2; [lia|].
  assert (Z.log2 v < 16) by (apply Z.log2_lt_pow2; lia). lia.
Qed.

Lemma odd_bits_32_16 (v : Z) : 0 <= v < 65536 -> odd_bits 32 v = odd_bits 16 v.
Proof.
  intros Hv. apply (odd_bits_high_zero 16 16).
  intros j Hj. apply testbit_above_16; [exact Hv | lia].
Qed.

(** X1. On every 16-bit word the hand-written bit-counting loop and the
    compiler builtin compute the same parity, and a word passes
    [spiCheckParity] exactly when [spiCalcEvenParity] of the whole word
    is 0. *)
Theorem parity_implementations_agree (v : Z) :
  0 <= v < 65536 ->
  spiCalcEvenParity v = builtin_parity v /\
  (spiCheckParity v = 1 <-> spiCalcEvenParity v = 0).
Proof.
  intros Hv. rewrite spiCalcEvenParity_bits by exact Hv.
  unfold builtin_parity. rewrite odd_bits_32_16 by exact Hv.
  split; [reflexivity|]. rewrite spiCheckParity_bits.
  destruct (odd_bits 16 v); cbn; split; intros H; (reflexivity || discriminate H).
Qed.

Lemma parity_implementations_agree_witness :
  spiCalcEvenParity 0xA000 = builtin_parity 0xA000 /\
  (spiCheckParity 0xA000 = 1 <-> spiCalcEvenParity 0xA000 = 0).
Proof. apply (parity_implementations_agree 0xA000). lia. Defined.

(** X2. The parity check cannot see an even number of flipped bits:
    flipping two bits of any word leaves the verdict of [spiCheckParity]
    as it was, so a valid word with two corrupted bits is still accepted. *)
Theorem double_bit_flip_undetected (w i j : Z) :
  0 <= i <= 15 -> 0 <= j <= 15 ->
  spiCheckParity (flip_bit (flip_bit w i) j) = spiCheckParity w.
Proof.
  intros Hi Hj. rewrite !spiCheckParity_bits, !odd_bits_flip by lia.
  destruct (Z.ltb_spec i (Z.of_nat 16)); [|lia].
  destruct (Z.ltb_spec j (Z.of_nat 16)); [|lia].
  destruct (odd_bits 16 w); reflexivity.
Qed.

Lemma double_bit_flip_undetected_witness :
  spiCheckParity (flip_bit (flip_bit 0xA000 3) 9) = spiCheckParity 0xA000.
Proof. apply (double_bit_flip_undetected 0xA000 3 9); lia. Defined.

End ParityMore.

(* ===================================================================== *)
(** * Further properties: the driver's exchanges *)
(* ===================================================================== *)

Module DriverFacts.
Import Encoder Driver IntFacts ParityFacts EncoderFacts.

Lemma u16_lor (x y : Z) : u16 (Z.lor x y) = Z.lor (u16 x) (u16 y).
Proof. unfold u16. apply Z.land_lor_distr_l. Qed.

Lemma land_low15_small (c : Z) : 0 <= c < 0x8000 -> Z.land c 0x7FFF = c.
Proof.
  intros Hc. change 0x7FFF with (Z.ones 15). rewrite Z.land_ones by lia.
  apply Z.mod_small. lia.
Qed.

(** Setting the parity bit of a 15-bit word as [read] and [write] do it
    gives [with_parity] of that word. *)
Lemma framed_word (c : Z) :
  0 <= c < 0x8000 ->
  u16 (Z.lor c (u16 (Z.shiftl (spiCalcEvenParity c) 0xF))) = with_parity c.
Proof.
  intros Hc. unfold with_parity. rewrite land_low15_small by exact Hc.
  rewrite spiCalcEvenParity_bits by lia.
  rewrite u16_lor, (u16_small c) by lia.
  destruct (odd_bits 16 c); reflexivity.
Qed.

Lemma with_parity_valid (c : Z) : spiCheckParity (with_parity c) = 1.
Proof. rewrite spiCheckParity_bits, odd_bits_with_parity. reflexivity. Qed.

Lemma with_parity_low14 (c : Z) :
  0 <= c < 0x8000 -> Z.land (with_parity c) 0x3FFF = Z.land c 0x3FFF.
Proof.
  intros Hc. unfold with_parity. rewrite land_low15_small by exact Hc.
  rewrite spiCalcEvenParity_bits by lia.
  rewrite Z.land_lor_distr_l.
  destruct (odd_bits 16 c); cbn [Z.b2z]; [|apply Z.lor_0_r].
  change (Z.land (Z.shiftl 1 15) 0x3FFF) with 0. apply Z.lor_0_r.
Qed.

Lemma with_parity_bit14 (c : Z) :
  0 <= c < 0x8000 -> Z.testbit (with_parity c) 14 = Z.testbit c 14.
Proof.
  intros Hc. unfold with_parity. rewrite land_low15_small by exact Hc.
  rewrite Z.lor_spec, Z.shiftl_spec by lia.
  rewrite (Z.testbit_neg_r _ (14 - 15)) by lia. apply orb_false_r.
Qed.

Lemma lor_read_bit (a : Z) :
  0 <= a < 0x4000 ->
  0 <= Z.lor 0x4000 a < 0x8000 /\
  Z.land (Z.lor 0x4000 a) 0x3FFF = a /\
  Z.testbit (Z.lor 0x4000 a) 14 = true.
Proof.
  intros Ha.
  assert (Hlow : Z.land a 0x3FFF = a).
  { change 0x3FFF with (Z.ones 14). rewrite Z.land_ones by lia.
    apply Z.mod_small. lia. }
  assert (Hsum : Z.lor 0x4000 a = 0x4000 + a).
  { symmetry. apply Z.add_nocarry_lor. rewrite <- Hlow.
    rewrite (Z.land_comm a), Z.land_assoc. reflexivity. }
  split; [rewrite Hsum; lia|]. split.
  - rewrite Z.land_lor_distr_l, Hlow. reflexivity.
  - rewrite Z.lor_spec. reflexivity.
Qed.

Lemma testbit14_small (a : Z) : 0 <= a < 0x4000 -> Z.testbit a 14 = false.
Proof.
  intros Ha. destruct (Z.eq_dec a 0) as [->|Hne]; [reflexivity|].
  apply Z.bits_above_log2; [lia|].
  assert (Z.log2 a < 14) by (apply Z.log2_lt_pow2; lia). lia.
Qed.

(** Stripping the two flag bits of a response leaves its low 14 bits. *)
Lemma strip_flags (r : Z) : u16 (Z.land (u16 r) (Z.lnot 0xC000)) = Z.land r 0x3FFF.
Proof. unfold u16. rewrite <- !Z.land_assoc. reflexivity. Qed.

Lemma low14_range (r : Z) : 0 <= Z.land r 0x3FFF < 16384.
Proof.
  change 0x3FFF with (Z.ones 14). rewrite Z.land_ones by lia.
  apply Z.mod_pos_bound. lia.
Qed.

(** The command word of a read of the register [a]. *)
Definition read_command (a : Z) : Z := with_parity (Z.lor 0x4000 a).

(** X3. For every 14-bit register address, [read] makes exactly two
    transfers: a command word that passes the parity check, has the read
    bit (bit 14) set and carries the address in its low 14 bits, then the
    dummy word 0. *)
Theorem read_transmits_valid_command (a : Z) (w : World) :
  0 <= a < 0x4000 ->
  let w' := exec (read a) w in
  mosi (spi w') = 0 :: read_command a :: mosi (spi w) /\
  transfers (spi w') = S (S (transfers (spi w))) /\
  spiCheckParity (read_command a) = 1 /\
  Z.testbit (read_command a) 14 = true /\
  Z.land (read_command a) 0x3FFF = a.
Proof.
  intros Ha. cbv zeta. destruct (lor_read_bit a Ha) as (Hrange & Hlow & Hbit).
  unfold exec. rewrite read_run. cbn [snd spi]. unfold spi_after_read.
  cbn [mosi transfers]. unfold read_command.
  rewrite (u16_small (Z.lor 0x4000 a)) by lia.
  rewrite framed_word by exact Hrange.
  repeat split.
  - apply with_parity_valid.
  - rewrite with_parity_bit14 by exact Hrange. exact Hbit.
  - rewrite with_parity_low14 by exact Hrange. exact Hlow.
Qed.

Lemma read_transmits_valid_command_witness :
  mosi (spi (exec (read AS5048A_ANGLE) (answering 0xA000 fresh))) = [0; 0xFFFF] /\
  spiCheckParity (read_command AS5048A_ANGLE) = 1.
Proof.
  pose proof (read_transmits_valid_command AS5048A_ANGLE (answering 0xA000 fresh)
                ltac:(split; [discriminate | reflexivity]))
    as (Hsent & _ & Hvalid & _).
  split; [exact Hsent | exact Hvalid].
Defined.

(** X4. Whatever the sensor answers, [read] returns the low 14 bits of
    the response, a value in [0, 16383], and changes no member of the
    driver other than [errorFlag]. *)
Theorem read_returns_low_14_bits (a : Z) (w : World) :
  let r := miso (spi w) (S (transfers (spi w))) in
  eval (read a) w = Z.land r 0x3FFF /\
  0 <= eval (read a) w < 16384 /\
  dev (exec (read a) w) = set_errorFlag (errorFlag (dev (exec (read a) w))) (dev w).
Proof.
  cbv zeta. unfold eval, exec. rewrite read_run. cbn [fst snd dev].
  unfold incoming. rewrite strip_flags.
  split; [reflexivity|]. split; [apply low14_range | reflexivity].
Qed.

(** X5. For a 14-bit address and 14-bit data, [write] transmits three
    words: the address word and the data word, both passing the parity
    check, the address word with the read bit clear, then the dummy word
    0.  It returns the low 14 bits of the third response and changes no
    member of the driver: a corrupted status frame is not reported through
    [errorFlag]. *)
Theorem write_transmits_valid_frames (a data : Z) (w : World) :
  0 <= a < 0x4000 -> 0 <= data < 0x4000 ->
  let w' := exec (write a data) w in
  mosi (spi w') = 0 :: with_parity data :: with_parity a :: mosi (spi w) /\
  spiCheckParity (with_parity a) = 1 /\
  spiCheckParity (with_parity data) = 1 /\
  Z.testbit (with_parity a) 14 = false /\
  Z.land (with_parity a) 0x3FFF = a /\
  Z.land (with_parity data) 0x3FFF = data /\
  dev w' = dev w /\
  eval (write a data) w = Z.land (miso (spi w) (S (S (transfers (spi w))))) 0x3FFF.
Proof.
  intros Ha Hdata. cbv zeta.
  assert (Hlow : forall x, 0 <= x < 0x4000 -> Z.land x 0x3FFF = x).
  { intros x Hx. change 0x3FFF with (Z.ones 14). rewrite Z.land_ones by lia.
    apply Z.mod_small. lia. }
  assert (Hsent : forall x, 0 <= x < 0x4000 ->
            u16 (Z.lor (u16 (Z.lor 0 x))
                       (u16 (Z.shiftl (spiCalcEvenParity (u16 (Z.lor 0 x))) 0xF)))
            = with_parity x).
  { intros x Hx. rewrite Z.lor_0_l, (u16_small x) by lia. apply framed_word. lia. }
  destruct w as [d [rx n tx]].
  unfold exec, eval, write, bind, transfer16, ret.
  cbn [fst snd dev spi miso transfers mosi].
  rewrite (Hsent a Ha), (Hsent data Hdata), strip_flags.
  repeat split; try apply with_parity_valid.
  - rewrite with_parity_bit14 by lia. apply testbit14_small, Ha.
  - rewrite with_parity_low14 by lia. apply Hlow, Ha.
  - rewrite with_parity_low14 by lia. apply Hlow, Hdata.
Qed.

Lemma write_transmits_valid_frames_witness :
  mosi (spi (exec (write 0x0016 0x0123) (answering 0xA000 fresh))) =
    [0; with_parity 0x0123; with_parity 0x0016] /\
  dev (exec (write 0x0016 0x0123) (answering 0xA000 fresh)) = fresh /\
  eval (write 0x0016 0x0123) (answering 0xA000 fresh) = 0x2000.
Proof.
  pose proof (write_transmits_valid_frames 0x0016 0x0123 (answering 0xA000 fresh)
                ltac:(split; [discriminate | reflexivity])
                ltac:(split; [discriminate | reflexivity]))
    as (Hsent & _ & _ & _ & _ & _ & Hdev & Hret).
  split; [exact Hsent|]. split; [exact Hdev | exact Hret].
Defined.

(** ** The unwrapper between two samples *)

Lemma effective_raw_error (d : AS5048A) (resp : Z) :
  spiCheckParity resp = 0 -> effective_raw d resp = prevRaw d.
Proof.
  intros Hpar. unfold effective_raw. rewrite Hpar. change (0 =? 0) with true.
  cbv iota. destruct (prevRaw d =? 0); destruct (FULL_SCALE <=? prevRaw d); reflexivity.
Qed.

(** The value used for a sample is the previous one or lies strictly
    between 0 and full scale. *)
Lemma effective_raw_cases (d : AS5048A) (resp : Z) :
  effective_raw d resp = prevRaw d \/ 0 < effective_raw d resp < FULL_SCALE.
Proof.
  unfold effective_raw.
  set (r := u16 (i16 (u16 (Z.land resp (Z.lnot 0xC000))))).
  assert (Hr : 0 <= r) by (unfold r; apply u16_range).
  destruct (spiCheckParity resp =? 0).
  - left. destruct (prevRaw d =? 0); destruct (FULL_SCALE <=? prevRaw d); reflexivity.
  - destruct (Z.eqb_spec r 0) as [Hz|Hnz].
    + left. destruct (FULL_SCALE <=? prevRaw d); reflexivity.
    + destruct (Z.leb_spec FULL_SCALE r); [left; reflexivity | right; lia].
Qed.

Definition no_overflow (d : AS5048A) : Prop :=
  - 65536 <= revCount d <= 65536 /\ 0 <= position d < 65536 /\ 0 <= prevRaw d < 65536.

Lemma continuous_output_exact (d : AS5048A) (raw rc : Z) :
  - 65537 <= rc <= 65537 -> 0 <= raw < 65536 -> 0 <= position d < 65536 ->
  continuous_output d raw rc = rc * 16384 + raw - position d - 8192.
Proof.
  intros Hrc Hraw Hpos. unfold continuous_output, FULL_SCALE, HALF_SCALE.
  assert (B : forall x, - 2147483648 <= x <= 2147483647 -> i32 x = x).
  { intros x Hx. apply i32_small. unfold INT32_MIN, INT32_MAX. lia. }
  rewrite (B (rc * 16384)) by lia.
  rewrite (B (position d)) by lia.
  rewrite (B (rc * 16384 + raw)) by lia.
  rewrite (B (rc * 16384 + raw - position d)) by lia.
  apply B. lia.
Qed.

(** X6. The unwrapper follows any displacement of less than half a
    revolution: in an initialized state, if the valid nonzero reading is
    the previous one advanced by [delta] modulo 16384 with
    -8192 < delta < 8192, then the continuous count
    [revCount * 16384 + prevRaw] advances by exactly [delta], and so does
    the value returned, across the wrap boundary as well as away from it. *)
Theorem unwrapped_follows_displacement (w : World) (raw delta : Z) :
  prevRawinitialized (dev w) = true ->
  no_overflow (dev w) ->
  0 <= prevRaw (dev w) < FULL_SCALE ->
  carries (incoming w) raw -> 0 < raw < FULL_SCALE ->
  - HALF_SCALE < delta < HALF_SCALE ->
  raw = (prevRaw (dev w) + delta) mod FULL_SCALE ->
  let d := dev w in
  let d' := dev (exec getRotationUnwrapped w) in
  revCount d' * 16384 + prevRaw d' = revCount d * 16384 + prevRaw d + delta /\
  eval getRotationUnwrapped w =
    (revCount d * 16384 + prevRaw d - position d - 8192) + delta.
Proof.
  intros Hini (Hrc & Hpos & Hprev16) Hprev Hresp Hraw Hdelta Hmod. cbv zeta.
  rewrite eval_after, dev_after. cbv zeta. cbn [revCount prevRaw].
  rewrite (effective_raw_valid _ _ raw Hresp Hraw).
  unfold FULL_SCALE, HALF_SCALE in *.
  assert (Hq : exists q, prevRaw (dev w) + delta = 16384 * q + raw /\ -1 <= q <= 1).
  { exists ((prevRaw (dev w) + delta) / 16384).
    pose proof (Z.div_mod (prevRaw (dev w) + delta) 16384 ltac:(lia)) as Hdm.
    rewrite <- Hmod in Hdm. split; [exact Hdm | lia]. }
  destruct Hq as (q & Hq & Hqr).
  assert (Hnext : next_revCount (dev w) raw = revCount (dev w) + q).
  { unfold next_revCount, HALF_SCALE. rewrite Hini.
    rewrite (i16_small (raw - prevRaw (dev w))) by lia.
    destruct (Z.ltb_spec 8192 (raw - prevRaw (dev w))).
    - rewrite i32_small by (unfold INT32_MIN, INT32_MAX; lia). lia.
    - destruct (Z.ltb_spec (raw - prevRaw (dev w)) (Z.opp 8192)).
      + rewrite i32_small by (unfold INT32_MIN, INT32_MAX; lia). lia.
      + lia. }
  rewrite Hnext. split; [lia|].
  rewrite continuous_output_exact by lia. lia.
Qed.

Definition turning : World :=
  mkWorld (mkAS5048A 1 false false 100 false 16000 true 3)
          (mkSPI (fun _ => with_parity 200) 0 nil).

Lemma unwrapped_follows_displacement_witness :
  eval getRotationUnwrapped turning = (3 * 16384 + 16000 - 100 - 8192) + 584 /\
  revCount (dev (exec getRotationUnwrapped turning)) = 4.
Proof.
  pose proof (unwrapped_follows_displacement turning 200 584
                eq_refl
                ltac:(vm_compute; repeat split; discriminate)
                ltac:(vm_compute; split; [discriminate | reflexivity])
                ltac:(split; reflexivity)
                ltac:(vm_compute; split; reflexivity)
                ltac:(vm_compute; split; reflexivity)
                eq_refl) as [_ Hout].
  split; [exact Hout | reflexivity].
Defined.

(** X7. In an initialized state a response that fails the parity check is
    dropped: [errorFlag] is raised, [prevRaw] and [revCount] keep their
    values and the call returns what the previous call returned. *)
Theorem corrupted_frame_is_dropped (w : World) :
  prevRawinitialized (dev w) = true ->
  spiCheckParity (incoming w) = 0 ->
  let w' := exec getRotationUnwrapped w in
  errorFlag (dev w') = true /\
  (prevRaw (dev w'), revCount (dev w')) = (prevRaw (dev w), revCount (dev w)) /\
  eval getRotationUnwrapped w =
    continuous_output (dev w) (prevRaw (dev w)) (revCount (dev w)) /\
  (forall w0 : World,
      w = exec getRotationUnwrapped w0 ->
      eval getRotationUnwrapped w = eval getRotationUnwrapped w0).
Proof.
  intros Hini Hpar. cbv zeta.
  pose proof (effective_raw_error (dev w) _ Hpar) as Hraw.
  assert (Hout : eval getRotationUnwrapped w =
                 continuous_output (dev w) (prevRaw (dev w)) (revCount (dev w))).
  { rewrite eval_after. cbv zeta. rewrite Hraw, (next_revCount_same _ Hini).
    reflexivity. }
  rewrite dev_after. cbv zeta. cbn [errorFlag prevRaw revCount].
  rewrite Hraw, (next_revCount_same _ Hini), Hpar.
  repeat split; [exact Hout|].
  intros w0 ->. rewrite Hout. symmetry. apply eval_from_state_after.
Qed.

Lemma corrupted_frame_is_dropped_witness :
  let w0 := answering_each (16000 :: 0x2000 :: nil) fresh in
  let w := exec getRotationUnwrapped w0 in
  errorFlag (dev (exec getRotationUnwrapped w)) = true /\
  eval getRotationUnwrapped w = eval getRotationUnwrapped w0.
Proof.
  cbv zeta.
  pose proof (corrupted_frame_is_dropped
                (exec getRotationUnwrapped (answering_each (16000 :: 0x2000 :: nil) fresh))
                eq_refl eq_refl) as H.
  cbv zeta in H. destruct H as (Herr & _ & _ & Hprev).
  split; [exact Herr | exact (Hprev _ eq_refl)].
Defined.

End DriverFacts.

(* ===================================================================== *)
(** * Further properties: sequences of driver calls *)
(* ===================================================================== *)

Module SequenceFacts.
Import Encoder Driver IntFacts ParityFacts EncoderFacts DriverFacts.
Import Stdlib.Strings.String.

(** What every call keeps of the driver's data. *)
Record kept (d d' : AS5048A) : Prop := mkKept {
  kept_cs : _cs d' = _cs d;
  kept_debug : debug d' = debug d;
  kept_ocf : ocfFlag d = true -> ocfFlag d' = true;
  kept_initialized : prevRawinitialized d = true -> prevRawinitialized d' = true;
  kept_prevRaw : 0 < prevRaw d < FULL_SCALE -> 0 < prevRaw d' < FULL_SCALE;
  kept_position : 0 <= position d <= 16382 -> 0 <= position d' <= 16382
}.

Lemma kept_refl (d : AS5048A) : kept d d.
Proof. constructor; auto. Qed.

Lemma kept_trans (d1 d2 d3 : AS5048A) : kept d1 d2 -> kept d2 d3 -> kept d1 d3.
Proof.
  intros [A1 A2 A3 A4 A5 A6] [B1 B2 B3 B4 B5 B6].
  constructor; try congruence; auto.
Qed.

Lemma kept_errorFlag (b : bool) (d : AS5048A) : kept d (set_errorFlag b d).
Proof. constructor; cbn; auto. Qed.

Lemma kept_ocfFlag (d : AS5048A) : kept d (set_ocfFlag true d).
Proof. constructor; cbn; auto. Qed.

Lemma read_dev (a : Z) (w : World) :
  dev (exec (read a) w) = set_errorFlag (spiCheckParity (incoming w) =? 0) (dev w).
Proof. unfold exec. rewrite read_run. reflexivity. Qed.

Lemma write_dev (a data : Z) (w : World) : dev (exec (write a data) w) = dev w.
Proof. destruct w as [d [rx n tx]]. reflexivity. Qed.

Lemma getRawRotation_dev (w : World) :
  dev (exec getRawRotation w) = set_errorFlag (spiCheckParity (incoming w) =? 0) (dev w).
Proof. unfold exec, getRawRotation, bind. rewrite read_run. reflexivity. Qed.

Lemma getGain_dev (w : World) :
  dev (exec getGain w) = set_errorFlag (spiCheckParity (incoming w) =? 0) (dev w).
Proof. unfold exec, getGain, getState, bind. rewrite read_run. reflexivity. Qed.

Lemma getErrors_dev (w : World) :
  dev (exec getErrors w) = set_errorFlag (spiCheckParity (incoming w) =? 0) (dev w).
Proof.
  unfold exec, getErrors, bind. rewrite read_run.
  repeat match goal with
         | |- context [if ?b then _ else _] => destruct b
         end; reflexivity.
Qed.

(** [getDiagnostic] in one equation. *)
Lemma getDiagnostic_run (w : World) :
  getDiagnostic w =
    let data := u16 (Z.land (incoming w) (Z.lnot 0xC000)) in
    let d := set_errorFlag (spiCheckParity (incoming w) =? 0) (dev w) in
    let s := spi_after_read AS5048A_DIAG_AGC (spi w) in
    if truthy (Z.land data AS5048A_DIAG_COMP_HIGH)
    then ("COMP high"%string, mkWorld d s)
    else if truthy (Z.land data AS5048A_DIAG_COMP_LOW)
    then ("COMP low"%string, mkWorld d s)
    else if truthy (Z.land data AS5048A_DIAG_COF)
    then ("CORDIC overflow"%string, mkWorld d s)
    else if truthy (Z.land data AS5048A_DIAG_OCF) && Bool.eqb (ocfFlag (dev w)) false
    then ("Offset compensation finished"%string, mkWorld (set_ocfFlag true d) s)
    else (EmptyString, mkWorld d s).
Proof.
  unfold getDiagnostic, getState. unfold bind at 1. rewrite read_run. cbv zeta.
  destruct (truthy (Z.land _ AS5048A_DIAG_COMP_HIGH)); [reflexivity|].
  destruct (truthy (Z.land _ AS5048A_DIAG_COMP_LOW)); [reflexivity|].
  destruct (truthy (Z.land _ AS5048A_DIAG_COF)); [reflexivity|].
  unfold bind, this. cbn [dev set_errorFlag ocfFlag].
  destruct (truthy (Z.land _ AS5048A_DIAG_OCF) && Bool.eqb (ocfFlag (dev w)) false);
    reflexivity.
Qed.

Lemma getDiagnostic_kept (w : World) : kept (dev w) (dev (exec getDiagnostic w)).
Proof.
  unfold exec. rewrite getDiagnostic_run. cbv zeta.
  repeat match goal with
         | |- context [if ?b then _ else _] => destruct b
         end; cbn [snd dev];
    try apply kept_errorFlag.
  eapply kept_trans; [apply kept_errorFlag | apply kept_ocfFlag].
Qed.

Lemma getRotationUnwrapped_kept (w : World) :
  kept (dev w) (dev (exec getRotationUnwrapped w)).
Proof.
  rewrite dev_after. cbv zeta. constructor; cbn; auto.
  intros Hprev. destruct (effective_raw_cases (dev w) (incoming w)) as [->|H]; assumption.
Qed.

Lemma getRotation_dev (o : bool) (w : World) :
  dev (exec (getRotation o) w) = dev (exec getRotationUnwrapped w).
Proof.
  unfold exec, getRotation. destruct o; unfold bind, this, ret; cbn [fst snd];
    destruct (getRotationUnwrapped w) as [u w']; reflexivity.
Qed.

Lemma setZeroPosition_dev (p : Z) (w : World) :
  dev (exec (setZeroPosition p) w) = set_position (u16 (Z.rem (u16 p) 0x3FFF)) (dev w).
Proof. reflexivity. Qed.

Lemma stored_position_range (p : Z) : 0 <= u16 (Z.rem (u16 p) 0x3FFF) <= 16382.
Proof.
  pose proof (u16_range p) as Hp.
  rewrite Z.rem_mod_nonneg by lia.
  pose proof (Z.mod_pos_bound (u16 p) 0x3FFF ltac:(lia)) as Hb.
  rewrite u16_small by lia. lia.
Qed.

Lemma perform_kept (w : World) (c : call) : kept (dev w) (dev (perform w c)).
Proof.
  destruct c; cbn [perform].
  - rewrite read_dev. apply kept_errorFlag.
  - rewrite write_dev. apply kept_refl.
  - rewrite getRawRotation_dev. apply kept_errorFlag.
  - apply getRotationUnwrapped_kept.
  - rewrite getRotation_dev. apply getRotationUnwrapped_kept.
  - unfold getState. rewrite read_dev. apply kept_errorFlag.
  - rewrite getGain_dev. apply kept_errorFlag.
  - apply getDiagnostic_kept.
  - rewrite getErrors_dev. apply kept_errorFlag.
  - rewrite setZeroPosition_dev. constructor; cbn; auto.
    intros _. apply stored_position_range.
  - apply kept_refl.
  - apply kept_refl.
Qed.

Lemma perform_all_kept (calls : list call) :
  forall w : World, kept (dev w) (dev (perform_all w calls)).
Proof.
  unfold perform_all. induction calls as [|c calls IH]; intros w; cbn [foldl].
  - apply kept_refl.
  - eapply kept_trans; [apply perform_kept | apply IH].
Qed.

(** X8. Whatever member functions are called and in whatever order, the
    chip-select pin and the debug switch never change, an initialized
    unwrapper stays initialized, a previous reading strictly between 0 and
    16384 stays so, and a zero offset of at most 16382 stays so; each of
    the three is kept on its own, whatever the rest of the state. *)
Theorem driver_state_invariants (w : World) (calls : list call) :
  let d' := dev (perform_all w calls) in
  _cs d' = _cs (dev w) /\
  debug d' = debug (dev w) /\
  (prevRawinitialized (dev w) = true -> prevRawinitialized d' = true) /\
  (0 < prevRaw (dev w) < FULL_SCALE -> 0 < prevRaw d' < FULL_SCALE) /\
  (0 <= position (dev w) <= 16382 -> 0 <= position d' <= 16382).
Proof.
  cbv zeta.
  destruct (perform_all_kept calls w) as [K1 K2 K3 K4 K5 K6].
  split; [exact K1|]. split; [exact K2|]. split; [exact K4|].
  split; [exact K5 | exact K6].
Qed.

Lemma driver_state_invariants_witness :
  let d' := dev (perform_all turning
                   [call_getRotationUnwrapped; call_setZeroPosition 40000;
                    call_getDiagnostic; call_write 0x16 0x12; call_getRotation false]) in
  _cs d' = 1 /\ prevRawinitialized d' = true /\ 0 < prevRaw d' < FULL_SCALE /\
  0 <= position d' <= 16382.
Proof.
  pose proof (driver_state_invariants turning
                [call_getRotationUnwrapped; call_setZeroPosition 40000;
                 call_getDiagnostic; call_write 0x16 0x12; call_getRotation false])
    as (Hcs & _ & Hini & Hprev & Hpos).
  cbv zeta.
  split; [exact Hcs|]. split; [exact (Hini eq_refl)|].
  split; [apply Hprev; vm_compute; split; reflexivity|].
  apply Hpos; vm_compute; split; discriminate.
Defined.

Definition ocf_message : string := "Offset compensation finished"%string.

Lemma getDiagnostic_not_ocf (w : World) :
  ocfFlag (dev w) = true -> eval getDiagnostic w <> ocf_message.
Proof.
  intros Hocf. unfold eval. rewrite getDiagnostic_run. cbv zeta. rewrite Hocf.
  cbn [Bool.eqb]. rewrite andb_false_r.
  repeat match goal with
         | |- context [if ?b then _ else _] => destruct b
         end; cbn [fst]; unfold ocf_message; discriminate.
Qed.

Lemma getDiagnostic_ocf_latches (w : World) :
  eval getDiagnostic w = ocf_message -> ocfFlag (dev (exec getDiagnostic w)) = true.
Proof.
  unfold eval, exec. rewrite getDiagnostic_run. cbv zeta.
  repeat match goal with
         | |- context [if ?b then _ else _] => destruct b
         end; cbn [fst snd dev]; unfold ocf_message; intros H;
    try discriminate H; reflexivity.
Qed.

(** X10. The message "Offset compensation finished" is reported at most
    once: after [getDiagnostic] has returned it, no later call of
    [getDiagnostic] returns it again, whatever member functions are called
    in between, because no member function clears [ocfFlag]. *)
Theorem offset_compensation_reported_once (w : World) (calls : list call) :
  eval getDiagnostic w = ocf_message ->
  let w' := perform_all (exec getDiagnostic w) calls in
  ocfFlag (dev w') = true /\ eval getDiagnostic w' <> ocf_message.
Proof.
  intros Hmsg. cbv zeta.
  pose proof (getDiagnostic_ocf_latches w Hmsg) as Hocf.
  pose proof (kept_ocf _ _ (perform_all_kept calls (exec getDiagnostic w)) Hocf) as Hocf'.
  split; [exact Hocf' | apply getDiagnostic_not_ocf, Hocf'].
Qed.

Lemma offset_compensation_reported_once_witness :
  eval getDiagnostic (answering (with_parity 0x0400) fresh) = ocf_message /\
  eval getDiagnostic
       (perform_all (exec getDiagnostic (answering (with_parity 0x0400) fresh))
                    [call_getRotationUnwrapped; call_getErrors]) <> ocf_message.
Proof.
  split; [reflexivity|].
  apply (offset_compensation_reported_once (answering (with_parity 0x0400) fresh)
           [call_getRotationUnwrapped; call_getErrors]).
  reflexivity.
Defined.

End SequenceFacts.

(* ===================================================================== *)
(** * Further properties: single-turn rotation, error register, offset *)
(* ===================================================================== *)

Module ReadingFacts.
Import Encoder Driver IntFacts ParityFacts EncoderFacts DriverFacts SequenceFacts.
Import Stdlib.Strings.String.

Lemma getRotation_run (o : bool) (w : World) :
  eval (getRotation o) w =
    let rc := if o then revCount (dev w)
              else revCount (dev (exec getRotationUnwrapped w)) in
    i16 (i32 (eval getRotationUnwrapped w - i32 (rc * FULL_SCALE))).
Proof.
  unfold eval, exec, getRotation. destruct o; unfold bind, this, ret;
    destruct (getRotationUnwrapped w) as [u w']; reflexivity.
Qed.

Lemma next_revCount_range (d : AS5048A) (raw : Z) :
  - 65536 <= revCount d <= 65536 -> - 65537 <= next_revCount d raw <= 65537.
Proof.
  intros Hrc. unfold next_revCount.
  destruct (prevRawinitialized d);
    repeat match goal with
           | |- context [if ?b then _ else _] => destruct b
           end;
    rewrite ?i32_small by (unfold INT32_MIN, INT32_MAX; lia); lia.
Qed.

Lemma effective_raw_range (d : AS5048A) (resp : Z) :
  0 <= prevRaw d < FULL_SCALE -> 0 <= effective_raw d resp < FULL_SCALE.
Proof.
  intros Hprev. destruct (effective_raw_cases d resp) as [->|H]; lia.
Qed.

(** X9. With the count inside +-65536 revolutions and the previous
    reading and the zero offset below 16384, [getRotation] returns the
    reading used for this sample minus the offset minus 8192, a value in
    [-24575, 8191] that does not depend on the revolution count, when
    [revCount] is read after the call to [getRotationUnwrapped]; when it
    is read before, the result is the same provided the call did not
    change [revCount]. *)
Theorem getRotation_single_turn (w : World) :
  - 65536 <= revCount (dev w) <= 65536 ->
  0 <= prevRaw (dev w) < FULL_SCALE ->
  0 <= position (dev w) < FULL_SCALE ->
  let w' := exec getRotationUnwrapped w in
  let single := prevRaw (dev w') - position (dev w) - HALF_SCALE in
  eval (getRotation false) w = single /\
  (revCount (dev w') = revCount (dev w) -> eval (getRotation true) w = single) /\
  - 24575 <= single <= 8191.
Proof.
  intros Hrc Hprev Hpos. cbv zeta.
  pose proof (next_revCount_range (dev w) (effective_raw (dev w) (incoming w)) Hrc) as Hn.
  pose proof (effective_raw_range (dev w) (incoming w) Hprev) as Hraw.
  assert (Hafter : eval (getRotation false) w =
                   effective_raw (dev w) (incoming w) - position (dev w) - HALF_SCALE).
  { rewrite getRotation_run. cbv zeta. rewrite eval_after, dev_after. cbv zeta.
    cbn [revCount]. unfold FULL_SCALE, HALF_SCALE in *.
    rewrite continuous_output_exact by lia.
    rewrite (i32_small (_ * 16384)) by (unfold INT32_MIN, INT32_MAX; lia).
    rewrite i32_small by (unfold INT32_MIN, INT32_MAX; lia).
    rewrite i16_small by lia. lia. }
  rewrite dev_after. cbv zeta. cbn [prevRaw revCount].
  split; [exact Hafter|]. split.
  - intros Hsame. rewrite <- Hafter, !getRotation_run. cbv zeta.
    rewrite dev_after. cbv zeta. cbn [revCount]. rewrite Hsame. reflexivity.
  - unfold FULL_SCALE, HALF_SCALE in *. lia.
Qed.

Lemma getRotation_single_turn_witness :
  eval (getRotation false) turning = 200 - 100 - 8192 /\
  - 24575 <= 200 - 100 - 8192 <= 8191.
Proof.
  pose proof (getRotation_single_turn turning
                ltac:(vm_compute; split; discriminate)
                ltac:(vm_compute; split; [discriminate | reflexivity])
                ltac:(vm_compute; split; [discriminate | reflexivity]))
    as (Hafter & _ & Hrange).
  split; [exact Hafter | exact Hrange].
Defined.

(** ** The error register *)

Lemma land_pow2 (r k : Z) :
  0 <= k -> Z.land r (2 ^ k) = if Z.testbit r k then 2 ^ k else 0.
Proof.
  intros Hk. apply Z.bits_inj'. intros n Hn.
  rewrite Z.land_spec, Z.pow2_bits_eqb by lia.
  destruct (Z.testbit r k) eqn:Hbit.
  - rewrite Z.pow2_bits_eqb by lia.
    destruct (Z.eqb_spec k n) as [<-|Hne]; [rewrite Hbit; reflexivity | apply andb_false_r].
  - rewrite Z.bits_0.
    destruct (Z.eqb_spec k n) as [<-|Hne]; [rewrite Hbit; reflexivity | apply andb_false_r].
Qed.

Lemma truthy_land_pow2 (r k : Z) :
  0 <= k -> truthy (Z.land r (2 ^ k)) = Z.testbit r k.
Proof.
  intros Hk. rewrite land_pow2 by exact Hk.
  destruct (Z.testbit r k); [|reflexivity].
  unfold truthy. destruct (Z.eqb_spec (2 ^ k) 0) as [H0|_]; [|reflexivity].
  pose proof (Z.pow_pos_nonneg 2 k ltac:(lia) Hk). lia.
Qed.

Lemma stripped_low_bits (r m : Z) :
  Z.land 0x3FFF m = m ->
  Z.land (u16 (Z.land r (Z.lnot 0xC000))) m = Z.land r m.
Proof.
  intros Hm. unfold u16. rewrite <- !Z.land_assoc. f_equal.
  rewrite <- Hm at 2. rewrite !Z.land_assoc. reflexivity.
Qed.

Lemma low_three_bits (r : Z) :
  Z.land r 0x7 = 0 <->
  Z.testbit r 2 = false /\ Z.testbit r 1 = false /\ Z.testbit r 0 = false.
Proof.
  change 0x7 with (Z.lor (2 ^ 2) (Z.lor (2 ^ 1) (2 ^ 0))).
  rewrite !Z.land_lor_distr_r, !Z.lor_eq_0_iff, !land_pow2 by lia.
  destruct (Z.testbit r 2), (Z.testbit r 1), (Z.testbit r 0);
    split; intros (H2 & H1 & H0); try discriminate; repeat split; reflexivity.
Qed.

(** [getErrors] in one equation, on the bits of the response. *)
Lemma getErrors_run (w : World) :
  eval getErrors w =
    if Z.testbit (incoming w) 2 then "Parity Error"%string
    else if Z.testbit (incoming w) 1 then "Command invalid"%string
    else if Z.testbit (incoming w) 0 then "Framing error"%string
    else EmptyString.
Proof.
  unfold eval, getErrors. unfold bind at 1. rewrite read_run.
  unfold AS5048A_ERROR_PARITY_FLAG, AS5048A_ERROR_COMMAND_INVALID_FLAG,
    AS5048A_ERROR_FRAMING_FLAG.
  rewrite !stripped_low_bits by reflexivity.
  rewrite (truthy_land_pow2 (incoming w) 2 ltac:(lia) : truthy (Z.land _ 0x04) = _).
  rewrite (truthy_land_pow2 (incoming w) 1 ltac:(lia) : truthy (Z.land _ 0x02) = _).
  rewrite (truthy_land_pow2 (incoming w) 0 ltac:(lia) : truthy (Z.land _ 0x01) = _).
  destruct (Z.testbit (incoming w) 2); [reflexivity|].
  destruct (Z.testbit (incoming w) 1); [reflexivity|].
  destruct (Z.testbit (incoming w) 0); reflexivity.
Qed.

(** X11. [getErrors] returns the empty string exactly when the three low
    bits of the response are clear; otherwise it names the highest of the
    three that is set: "Parity Error" for bit 2, "Command invalid" for
    bit 1 without bit 2, "Framing error" for bit 0 alone.  The parity and
    error-flag bits of the response have no influence on the message. *)
Theorem getErrors_names_highest_bit (w : World) :
  let r := incoming w in
  (eval getErrors w = EmptyString <-> Z.land r 0x7 = 0) /\
  (eval getErrors w = "Parity Error"%string <-> Z.testbit r 2 = true) /\
  (eval getErrors w = "Command invalid"%string <->
     Z.testbit r 2 = false /\ Z.testbit r 1 = true) /\
  (eval getErrors w = "Framing error"%string <->
     Z.testbit r 2 = false /\ Z.testbit r 1 = false /\ Z.testbit r 0 = true).
Proof.
  cbv zeta. rewrite getErrors_run, low_three_bits.
  destruct (Z.testbit (incoming w) 2), (Z.testbit (incoming w) 1),
           (Z.testbit (incoming w) 0);
    repeat split; intros; try discriminate; try reflexivity;
    repeat match goal with
           | H : _ /\ _ |- _ => destruct H
           end; try discriminate; auto.
Qed.

(** ** The zero offset *)

(** X12. Writing back the zero offset that [getZeroPosition] returns
    changes nothing once the offset is at most 16382, which is the case
    after any [setZeroPosition]: setting, reading and setting again leaves
    the world as the first setting left it. *)
Theorem zero_position_round_trip (w : World) (p : Z) :
  (0 <= position (dev w) <= 16382 ->
   exec (setZeroPosition (eval getZeroPosition w)) w = w) /\
  (let w1 := exec (setZeroPosition p) w in
   exec (setZeroPosition (eval getZeroPosition w1)) w1 = w1).
Proof.
  assert (Hfix : forall v, 0 <= position (dev v) <= 16382 ->
            exec (setZeroPosition (eval getZeroPosition v)) v = v).
  { intros [d s] Hpos. destruct d as [cs ef ocf pos dbg pr ini rc].
    cbn [dev position] in Hpos.
    unfold exec, eval, setZeroPosition, getZeroPosition, bind, this, ret, modify.
    cbn [fst snd dev spi set_position _cs errorFlag ocfFlag position debug prevRaw
         prevRawinitialized revCount].
    rewrite (u16_small pos) by lia. rewrite Z.rem_mod_nonneg by lia.
    rewrite Z.mod_small by lia. rewrite u16_small by lia. reflexivity. }
  split; [apply Hfix|]. cbv zeta. apply Hfix.
  rewrite setZeroPosition_dev. cbn [position set_position]. apply stored_position_range.
Qed.

Lemma zero_position_round_trip_witness :
  exec (setZeroPosition (eval getZeroPosition turning)) turning = turning.
Proof.
  apply (proj1 (zero_position_round_trip turning 0)).
  vm_compute. split; discriminate.
Defined.

End ReadingFacts.

(* ===================================================================== *)
(** * Further properties: the filter's history and special values *)
(* ===================================================================== *)

Module HistoryFacts.
Import Float Filter FloatFacts FilterFacts.

(** The descending loop moves every element one place up without
    overwriting a value it still has to read. *)
Lemma shift_loop_lookup (i : nat) :
  forall (a : list float) (k : nat),
  (i < length a)%nat ->
  shift_loop i a !! k =
    if decide (k = 0%nat) then a !! 0%nat
    else if decide (k <= i)%nat then a !! (k - 1)%nat
    else a !! k.
Proof.
  induction i as [|i IH]; intros a k Hi.
  - cbn [shift_loop]. repeat case_decide; subst; try lia; reflexivity.
  - cbn [shift_loop]. rewrite IH by (rewrite length_insert; lia).
    repeat case_decide; subst; try lia.
    + apply list_lookup_insert_ne. lia.
    + apply list_lookup_insert_ne. lia.
    + assert (k = S i) as -> by lia.
      rewrite list_lookup_insert_eq by lia.
      replace (S i - 1)%nat with i by lia.
      symmetry. apply list_lookup_lookup_total_lt. lia.
    + apply list_lookup_insert_ne. lia.
Qed.

Lemma shifted_in (SIZE : nat) (a : list float) (x : float) :
  (1 <= SIZE)%nat -> length a = SIZE ->
  <[0%nat := x]> (shift_loop (SIZE - 1) a) = take SIZE (x :: a).
Proof.
  intros HS Hlen. apply list_eq. intros k.
  replace SIZE with (S (SIZE - 1)) at 2 by lia. cbn [take].
  destruct k as [|k].
  - rewrite list_lookup_insert_eq by (rewrite shift_loop_length; lia). reflexivity.
  - rewrite list_lookup_insert_ne by lia.
    rewrite shift_loop_lookup by lia. rewrite lookup_cons.
    repeat case_decide; try lia.
    + replace (S k - 1)%nat with k by lia.
      symmetry. apply lookup_take_lt. lia.
    + rewrite lookup_take_ge by lia. apply lookup_ge_None_2. lia.
Qed.

Section History.

Variable SIZE : nat.
Hypothesis SIZE_pos : (1 <= SIZE)%nat.

Lemma filterData_step (f : DiscreteFilter) (dat : float) :
  length (forcedResponse f) = SIZE -> length (naturalResponse f) = SIZE ->
  let y := fst (filterData SIZE f dat) in
  let f' := snd (filterData SIZE f dat) in
  forcedResponse f' = take SIZE (dat :: forcedResponse f) /\
  naturalResponse f' = take SIZE (y :: naturalResponse f) /\
  naturalResponseCoefficients f' = naturalResponseCoefficients f /\
  forcedResponseCoefficients f' = forcedResponseCoefficients f /\
  y = fdiv (weighted_sum SIZE f (take SIZE (dat :: forcedResponse f)))
           (naturalResponseCoefficients f !!! 0%nat).
Proof.
  intros Hx Hy. cbv zeta. unfold filterData. cbv zeta. cbn [fst snd].
  cbn [forcedResponse naturalResponse naturalResponseCoefficients
       forcedResponseCoefficients].
  rewrite !shifted_in by assumption.
  assert (Hhead : forall (y : float) (l : list float), take SIZE (y :: l) !!! 0%nat = y).
  { intros y l. destruct SIZE; [lia | reflexivity]. }
  rewrite !Hhead. repeat split; reflexivity.
Qed.

Lemma take_app_take (n : nat) (l k : list float) :
  take n (l ++ take n k) = take n (l ++ k).
Proof.
  rewrite !take_app, take_take. f_equal. f_equal. lia.
Qed.

Lemma feed_history (samples : list float) :
  forall f : DiscreteFilter,
  length (forcedResponse f) = SIZE -> length (naturalResponse f) = SIZE ->
  let outputs := fst (feed SIZE f samples) in
  let f' := snd (feed SIZE f samples) in
  length outputs = length samples /\
  forcedResponse f' = take SIZE (reverse samples ++ forcedResponse f) /\
  naturalResponse f' = take SIZE (reverse outputs ++ naturalResponse f) /\
  naturalResponseCoefficients f' = naturalResponseCoefficients f /\
  forcedResponseCoefficients f' = forcedResponseCoefficients f.
Proof.
  induction samples as [|dat rest IH]; intros f Hx Hy; cbv zeta.
  - cbn [feed fst snd reverse]. cbn.
    rewrite !take_ge by lia. repeat split; reflexivity.
  - cbn [feed].
    destruct (filterData_step f dat Hx Hy) as (Hx' & Hy' & Ha & Hb & _).
    destruct (filterData SIZE f dat) as [y f1]. cbn [fst snd] in *.
    assert (Hx1 : length (forcedResponse f1) = SIZE).
    { rewrite Hx', length_take. cbn [length]. lia. }
    assert (Hy1 : length (naturalResponse f1) = SIZE).
    { rewrite Hy', length_take. cbn [length]. lia. }
    destruct (IH f1 Hx1 Hy1) as (Hlen & Hxs & Hys & Has & Hbs).
    destruct (feed SIZE f1 rest) as [ys f2]. cbn [fst snd length] in *.
    rewrite !reverse_cons, <- !app_assoc. cbn [app].
    rewrite Hxs, Hys, Hx', Hy', !take_app_take.
    repeat split; congruence.
Qed.

End History.

(** X13. The two history arrays are shift registers: after any sequence
    of [filterData] calls on a filter whose arrays have [SIZE >= 1]
    elements, the input history holds the last [SIZE] samples, newest
    first, followed by what is left of the old history, and the output
    history holds the last [SIZE] outputs in the same way; there is one
    output per sample and the coefficients are untouched.  Once [SIZE]
    samples have been fed nothing of the earlier history remains. *)
Theorem history_holds_last_samples
    (SIZE : nat) (f : DiscreteFilter) (samples : list float) :
  (1 <= SIZE)%nat ->
  length (forcedResponse f) = SIZE -> length (naturalResponse f) = SIZE ->
  let outputs := fst (feed SIZE f samples) in
  let f' := snd (feed SIZE f samples) in
  length outputs = length samples /\
  forcedResponse f' = take SIZE (reverse samples ++ forcedResponse f) /\
  naturalResponse f' = take SIZE (reverse outputs ++ naturalResponse f) /\
  naturalResponseCoefficients f' = naturalResponseCoefficients f /\
  forcedResponseCoefficients f' = forcedResponseCoefficients f /\
  ((SIZE <= length samples)%nat ->
   forcedResponse f' = take SIZE (reverse samples) /\
   naturalResponse f' = take SIZE (reverse outputs)).
Proof.
  intros HS Hx Hy. cbv zeta.
  destruct (feed_history SIZE HS samples f Hx Hy) as (Hlen & Hxs & Hys & Ha & Hb).
  repeat split; try assumption.
  - rewrite Hxs. apply take_app_le. rewrite length_reverse. assumption.
  - rewrite Hys. apply take_app_le. rewrite length_reverse. lia.
Qed.

Lemma history_holds_last_samples_witness :
  forcedResponse (snd (feed 2 lowpass_example
                            [float_lit 1 0; float_lit 2 0; float_lit 3 0])) =
    [float_lit 3 0; float_lit 2 0].
Proof.
  pose proof (history_holds_last_samples 2 lowpass_example
                [float_lit 1 0; float_lit 2 0; float_lit 3 0]
                ltac:(lia) eq_refl eq_refl) as H.
  cbv zeta in H. destruct H as (_ & _ & _ & _ & _ & Hfull).
  destruct (Hfull ltac:(cbn; lia)) as [Hx _]. exact Hx.
Defined.

End HistoryFacts.

Module SpecialValueFacts.
Import Float Filter FloatFacts FilterFacts HistoryFacts.

Lemma fadd_nan_l (x : float) : fadd S754_nan x = S754_nan.
Proof. reflexivity. Qed.

Lemma fsub_nan_l (x : float) : fsub S754_nan x = S754_nan.
Proof. reflexivity. Qed.

Lemma fmul_nan_r (x : float) : fmul x S754_nan = S754_nan.
Proof. destruct x; reflexivity. Qed.

Lemma fadd_nan_r (x : float) : fadd x S754_nan = S754_nan.
Proof. destruct x; reflexivity. Qed.

Lemma fsub_nan_r (x : float) : fsub x S754_nan = S754_nan.
Proof. destruct x; reflexivity. Qed.

Lemma fdiv_nan_l (x : float) : fdiv S754_nan x = S754_nan.
Proof. reflexivity. Qed.

Section NaN.

Variable SIZE : nat.

Lemma forced_steps_nan (b x : list float) (l : list nat) :
  foldl (fun sum i => fadd sum (fmul (b !!! i) (x !!! i))) S754_nan l = S754_nan.
Proof. induction l as [|i l IH]; [reflexivity | exact IH]. Qed.

Lemma natural_steps_nan (a y : list float) (l : list nat) :
  foldl (fun sum i => fsub sum (fmul (a !!! (i + 1)%nat) (y !!! i))) S754_nan l = S754_nan.
Proof. induction l as [|i l IH]; [reflexivity | exact IH]. Qed.

Lemma forced_sum_nan_input (b x : list float) (sum : float) :
  (1 <= SIZE)%nat -> x !!! 0%nat = (S754_nan : float) -> forced_sum SIZE b x sum = S754_nan.
Proof.
  intros HS Hx. unfold forced_sum.
  replace SIZE with (S (SIZE - 1)) by lia. cbn [seq foldl].
  rewrite Hx, fmul_nan_r, fadd_nan_r. apply forced_steps_nan.
Qed.

Lemma natural_sum_nan_start (a y : list float) : natural_sum SIZE a y S754_nan = S754_nan.
Proof. unfold natural_sum. apply natural_steps_nan. Qed.

Lemma natural_sum_nan_output (a y : list float) (sum : float) :
  (2 <= SIZE)%nat -> y !!! 0%nat = (S754_nan : float) -> natural_sum SIZE a y sum = S754_nan.
Proof.
  intros HS Hy. unfold natural_sum.
  replace (SIZE - 1)%nat with (S (SIZE - 2)) by lia. cbn [seq foldl].
  rewrite Hy, fmul_nan_r, fsub_nan_r. apply natural_steps_nan.
Qed.

(** A filter whose newest stored output is a NaN. *)
Record poisoned (f : DiscreteFilter) : Prop := mkPoisoned {
  poisoned_inputs : length (forcedResponse f) = SIZE;
  poisoned_outputs : length (naturalResponse f) = SIZE;
  poisoned_last : naturalResponse f !!! 0%nat = (S754_nan : float)
}.

Lemma nan_input_poisons (f : DiscreteFilter) :
  (1 <= SIZE)%nat ->
  length (forcedResponse f) = SIZE -> length (naturalResponse f) = SIZE ->
  fst (filterData SIZE f S754_nan) = S754_nan /\
  poisoned (snd (filterData SIZE f S754_nan)).
Proof.
  intros HS Hx Hy.
  destruct (filterData_step SIZE HS f S754_nan Hx Hy) as (Hx' & Hy' & _ & _ & Hout).
  assert (Hnan : fst (filterData SIZE f S754_nan) = S754_nan).
  { rewrite Hout. unfold weighted_sum.
    rewrite forced_sum_nan_input, natural_sum_nan_start; [reflexivity | exact HS |].
    destruct SIZE; [lia | reflexivity]. }
  split; [exact Hnan|]. constructor.
  - rewrite Hx', length_take. cbn [length]. lia.
  - rewrite Hy', length_take. cbn [length]. lia.
  - rewrite Hy', Hnan. destruct SIZE; [lia | reflexivity].
Qed.

Lemma poisoned_step (f : DiscreteFilter) (dat : float) :
  (2 <= SIZE)%nat -> poisoned f ->
  fst (filterData SIZE f dat) = S754_nan /\ poisoned (snd (filterData SIZE f dat)).
Proof.
  intros HS [Hx Hy Hlast].
  destruct (filterData_step SIZE ltac:(lia) f dat Hx Hy) as (Hx' & Hy' & _ & _ & Hout).
  assert (Hnan : fst (filterData SIZE f dat) = S754_nan).
  { rewrite Hout. unfold weighted_sum.
    rewrite natural_sum_nan_output by assumption. reflexivity. }
  split; [exact Hnan|]. constructor.
  - rewrite Hx', length_take. cbn [length]. lia.
  - rewrite Hy', length_take. cbn [length]. lia.
  - rewrite Hy', Hnan. destruct SIZE; [lia | reflexivity].
Qed.

Lemma poisoned_feed (samples : list float) :
  forall f : DiscreteFilter,
  (2 <= SIZE)%nat -> poisoned f ->
  Forall (fun y => y = S754_nan) (fst (feed SIZE f samples)).
Proof.
  induction samples as [|dat rest IH]; intros f HS Hp; cbn [feed].
  - constructor.
  - destruct (poisoned_step f dat HS Hp) as [Hy Hp'].
    destruct (filterData SIZE f dat) as [y f1]. cbn [fst snd] in *.
    specialize (IH f1 HS Hp').
    destruct (feed SIZE f1 rest) as [ys f2]. cbn [fst] in *.
    constructor; assumption.
Qed.

End NaN.

(** X14. A NaN sample gives a NaN output whatever the coefficients and
    the history; in a filter with at least two coefficients the NaN stays
    in the output history, so every later output is a NaN as well,
    whatever samples follow, until [reset] or [fill] is called. *)
Theorem nan_sample_poisons_filter
    (SIZE : nat) (f : DiscreteFilter) (later : list float) :
  length (forcedResponse f) = SIZE -> length (naturalResponse f) = SIZE ->
  ((1 <= SIZE)%nat -> fst (filterData SIZE f S754_nan) = S754_nan) /\
  ((2 <= SIZE)%nat ->
   Forall (fun y => y = S754_nan) (fst (feed SIZE f (S754_nan :: later)))).
Proof.
  intros Hx Hy. split.
  - intros HS. apply nan_input_poisons; assumption.
  - intros HS. cbn [feed].
    destruct (nan_input_poisons SIZE f ltac:(lia) Hx Hy) as [Hnan Hp].
    destruct (filterData SIZE f S754_nan) as [y f1]. cbn [fst snd] in *.
    pose proof (poisoned_feed SIZE later f1 HS Hp) as Hrest.
    destruct (feed SIZE f1 later) as [ys f2]. cbn [fst] in *.
    constructor; assumption.
Qed.

Lemma nan_sample_poisons_filter_witness :
  Forall (fun y => y = S754_nan)
         (fst (feed 2 lowpass_example [S754_nan; float_lit 1 0; float_lit 2 0])).
Proof.
  apply (proj2 (nan_sample_poisons_filter 2 lowpass_example
                  [float_lit 1 0; float_lit 2 0] eq_refl eq_refl)).
  lia.
Defined.

(** X15. The leading coefficient must not be zero: with finite
    coefficients and a zero at index 0 of the natural-response
    coefficients, the first [filterData(0)] after [reset] returns NaN
    (zero divided by zero) instead of zero. *)
Theorem zero_leading_coefficient_gives_nan
    (SIZE : nat) (f : DiscreteFilter) (dat : float) :
  (1 <= SIZE)%nat ->
  Forall Finite (naturalResponseCoefficients f) ->
  Forall Finite (forcedResponseCoefficients f) ->
  is_zero (naturalResponseCoefficients f !!! 0%nat) = true ->
  Zero dat ->
  fst (filterData SIZE (snd (reset SIZE f)) dat) = S754_nan.
Proof.
  intros HS Ha Hb Ha0 Hdat.
  destruct (filterData_step SIZE HS (snd (reset SIZE f)) dat) as (_ & _ & _ & _ & Hout).
  - cbn. apply length_replicate.
  - cbn. apply length_replicate.
  - rewrite Hout. unfold weighted_sum. cbn [reset snd naturalResponseCoefficients
      forcedResponseCoefficients naturalResponse forcedResponse].
    rewrite forced_sum_zero, natural_sum_zero; try assumption.
    + destruct (naturalResponseCoefficients f !!! 0%nat); try discriminate; reflexivity.
    + apply Forall_replicate. reflexivity.
    + replace SIZE with (S (SIZE - 1)) at 1 by lia. cbn [take].
      constructor; [exact Hdat|].
      apply Forall_take, Forall_replicate. reflexivity.
Qed.

Lemma zero_leading_coefficient_gives_nan_witness :
  fst (filterData 2 (snd (reset 2 (mkDiscreteFilter [zero; float_lit 1 0]
                                                   [float_lit 1 0; float_lit 1 0]
                                                   [zero; zero] [zero; zero]))) zero)
  = S754_nan.
Proof.
  apply (zero_leading_coefficient_gives_nan 2); try reflexivity; try lia;
    repeat constructor.
Defined.

Lemma fadd_zero_r (s z : float) : is_zero s = false -> Zero z -> fadd s z = s.
Proof. unfold Zero. destruct s, z; try discriminate; reflexivity. Qed.

Lemma fsub_zero_r (s z : float) : is_zero s = false -> Zero z -> fsub s z = s.
Proof. unfold Zero. destruct s, z; try discriminate; reflexivity. Qed.

Lemma fadd_zero_l (y : float) : is_zero y = false -> fadd zero y = y.
Proof. destruct y; try discriminate; reflexivity. Qed.

Section FirstOutput.

Variable SIZE : nat.

Lemma forced_steps_keep (b x : list float) (s : float) (l : list nat) :
  is_zero s = false -> Forall Finite b ->
  (forall i, i ∈ l -> Zero (x !!! i)) ->
  foldl (fun sum i => fadd sum (fmul (b !!! i) (x !!! i))) s l = s.
Proof.
  intros Hs Hb. induction l as [|i l IH]; intros Hx; [reflexivity|].
  cbn [foldl]. rewrite fadd_zero_r.
  - apply IH. intros j Hj. apply Hx. right. exact Hj.
  - exact Hs.
  - apply fmul_finite_zero; [apply lookup_Finite, Hb | apply Hx; left].
Qed.

Lemma natural_steps_keep (a y : list float) (s : float) (l : list nat) :
  is_zero s = false -> Forall Finite a -> Forall Zero y ->
  foldl (fun sum i => fsub sum (fmul (a !!! (i + 1)%nat) (y !!! i))) s l = s.
Proof.
  intros Hs Ha Hy. induction l as [|i l IH]; [reflexivity|].
  cbn [foldl]. rewrite fsub_zero_r; [exact IH | exact Hs |].
  apply fmul_finite_zero; [apply lookup_Finite, Ha | apply lookup_Zero, Hy].
Qed.

End FirstOutput.

(** X16. Direct feed-through: with finite coefficients, the first output
    after [reset] is the product of the first forced-response coefficient
    and the sample, divided by the leading natural-response coefficient,
    provided that product is not a zero; the zeros of the cleared history
    contribute nothing. *)
Theorem first_output_after_reset
    (SIZE : nat) (f : DiscreteFilter) (dat : float) :
  (1 <= SIZE)%nat ->
  Forall Finite (naturalResponseCoefficients f) ->
  Forall Finite (forcedResponseCoefficients f) ->
  is_zero (fmul (forcedResponseCoefficients f !!! 0%nat) dat) = false ->
  fst (filterData SIZE (snd (reset SIZE f)) dat) =
    fdiv (fmul (forcedResponseCoefficients f !!! 0%nat) dat)
         (naturalResponseCoefficients f !!! 0%nat).
Proof.
  intros HS Ha Hb Hprod.
  destruct (filterData_step SIZE HS (snd (reset SIZE f)) dat) as (_ & _ & _ & _ & Hout).
  - cbn. apply length_replicate.
  - cbn. apply length_replicate.
  - rewrite Hout. unfold weighted_sum. cbn [reset snd naturalResponseCoefficients
      forcedResponseCoefficients naturalResponse forcedResponse].
    assert (Hh : take SIZE (dat :: replicate SIZE zero) =
                 dat :: replicate (SIZE - 1) zero).
    { destruct SIZE as [|n]; [lia|]. cbn [take]. rewrite take_replicate.
      do 2 f_equal. lia. }
    assert (Hseq : seq 0 SIZE = 0%nat :: seq 1 (SIZE - 1)).
    { destruct SIZE as [|n]; [lia|]. cbn [seq]. do 2 f_equal. lia. }
    rewrite Hh. f_equal. unfold forced_sum, natural_sum. rewrite Hseq.
    cbn [foldl]. cbn [lookup_total list_lookup_total].
    rewrite fadd_zero_l by exact Hprod.
    rewrite forced_steps_keep; try assumption.
    + apply natural_steps_keep; [exact Hprod | exact Ha |].
      apply Forall_replicate. reflexivity.
    + intros i Hi. apply elem_of_seq in Hi.
      rewrite lookup_total_cons_ne_0 by lia.
      apply lookup_Zero, Forall_replicate. reflexivity.
Qed.

Lemma first_output_after_reset_witness :
  fst (filterData 2 (snd (reset 2 lowpass_example)) (float_lit 1 0)) =
    fdiv (fmul (float_lit 1 (-2)) (float_lit 1 0)) (float_lit 1 0).
Proof.
  apply (first_output_after_reset 2 lowpass_example (float_lit 1 0));
    try lia; try reflexivity; repeat constructor.
Defined.

End SpecialValueFacts.

(* ===================================================================== *)
(** * Further properties: what the design returns *)
(* ===================================================================== *)

Module StorageFacts.
Import Float Filter Design DesignFacts.

(** The storing loop on one array. *)
Definition fill_reversed (N : nat) (src : list double) (arr : list float) (n : nat)
    : list float :=
  foldl (fun arr i => <[(N - i - 1)%nat := double_to_float (src !!! i)]> arr)
        arr (seq 0 n).

Lemma store_reversed_fields (N : nat) (a b : list double) (l : list nat) :
  forall arrays : Coefficients,
  let stored :=
    foldl (fun arrays i =>
             mkCoefficients
               (<[(N - i - 1)%nat := double_to_float (a !!! i)]>
                  (coef_naturalResponseCoefficients arrays))
               (<[(N - i - 1)%nat := double_to_float (b !!! i)]>
                  (coef_forcedResponseCoefficients arrays)))
          arrays l in
  coef_naturalResponseCoefficients stored =
    foldl (fun arr i => <[(N - i - 1)%nat := double_to_float (a !!! i)]> arr)
          (coef_naturalResponseCoefficients arrays) l /\
  coef_forcedResponseCoefficients stored =
    foldl (fun arr i => <[(N - i - 1)%nat := double_to_float (b !!! i)]> arr)
          (coef_forcedResponseCoefficients arrays) l.
Proof.
  induction l as [|i l IH]; intros arrays; cbv zeta; [split; reflexivity|].
  cbn [foldl]. apply IH.
Qed.

Lemma fill_reversed_prefix (N : nat) (src : list double) (arr : list float) (n : nat) :
  (n <= N)%nat -> length arr = N ->
  length (fill_reversed N src arr n) = N /\
  forall i, (i < n)%nat ->
    fill_reversed N src arr n !!! (N - i - 1)%nat = double_to_float (src !!! i).
Proof.
  unfold fill_reversed. intros Hn Hlen. induction n as [|n IH].
  - split; [exact Hlen | intros i Hi; lia].
  - rewrite seq_S, foldl_snoc. cbn [Nat.add].
    destruct IH as [IHlen IHget]; [lia|]. split.
    + rewrite length_insert. exact IHlen.
    + intros i Hi. destruct (decide (i = n)) as [->|Hne].
      * apply list_lookup_total_insert_eq. lia.
      * rewrite list_lookup_total_insert_ne by lia. apply IHget. lia.
Qed.

Lemma fill_reversed_all (N : nat) (src : list double) (arr : list float) :
  length src = N -> length arr = N ->
  fill_reversed N src arr N = reverse (double_to_float <$> src).
Proof.
  intros Hsrc Harr.
  destruct (fill_reversed_prefix N src arr N (le_n _) Harr) as [Hlen Hget].
  apply list_eq. intros k.
  destruct (decide (k < N)%nat) as [Hk|Hk].
  - rewrite reverse_lookup by (rewrite length_fmap; lia).
    rewrite length_fmap, Hsrc, list_lookup_fmap.
    rewrite (list_lookup_lookup_total_lt src) by lia.
    rewrite (list_lookup_lookup_total_lt (fill_reversed N src arr N)) by lia.
    cbn [fmap option_fmap option_map]. f_equal.
    replace k with (N - (N - S k) - 1)%nat at 1 by lia.
    apply Hget. lia.
  - rewrite !lookup_ge_None_2; [reflexivity | |].
    + rewrite length_reverse, length_fmap. lia.
    + lia.
Qed.

Lemma store_reversed_all (N : nat) (a b : list double) (arrays : Coefficients) :
  length a = N -> length b = N ->
  length (coef_naturalResponseCoefficients arrays) = N ->
  length (coef_forcedResponseCoefficients arrays) = N ->
  store_reversed N a b arrays =
    mkCoefficients (reverse (double_to_float <$> a)) (reverse (double_to_float <$> b)).
Proof.
  intros Ha Hb Hna Hfa. unfold store_reversed.
  destruct (store_reversed_fields N a b (seq 0 N) arrays) as [Hn Hf].
  cbv zeta in Hn, Hf.
  destruct (foldl _ arrays (seq 0 N)) as [n f]. cbn in Hn, Hf. subst n f.
  f_equal.
  - apply (fill_reversed_all N a _ Ha Hna).
  - apply (fill_reversed_all N b _ Hb Hfa).
Qed.

(** X17. [butterworth] returns two vectors of
    [getNumCoefficients ORDER Type] entries ([ORDER + 1] for low-pass and
    high-pass, [2 * ORDER + 1] for the band types); the natural-response
    vector is the expanded pole polynomial converted to [float] and
    reversed, and nothing of what the two local arrays held before the
    storing loop reaches the result. *)
Theorem butterworth_result_is_reversed_polynomial
    (tan cos sin : double -> double) (atan2 : double -> double -> double)
    (ORDER : nat) (type : FilterType) (wc Ts wh : double)
    (arrays arrays' : Coefficients) :
  let N := getNumCoefficients ORDER type in
  length (coef_naturalResponseCoefficients arrays) = N ->
  length (coef_forcedResponseCoefficients arrays) = N ->
  length (coef_naturalResponseCoefficients arrays') = N ->
  length (coef_forcedResponseCoefficients arrays') = N ->
  let c := butterworth tan cos sin atan2 ORDER type wc Ts wh arrays in
  N = match type with
      | LOWPASS | HIGHPASS => (ORDER + 1)%nat
      | BANDPASS | BANDSTOP => (2 * ORDER + 1)%nat
      end /\
  coef_naturalResponseCoefficients c =
    reverse (double_to_float <$> butterworth_a tan cos sin atan2 ORDER type wc Ts wh) /\
  length (coef_naturalResponseCoefficients c) = N /\
  length (coef_forcedResponseCoefficients c) = N /\
  butterworth tan cos sin atan2 ORDER type wc Ts wh arrays' = c.
Proof.
  cbv zeta. intros Hn Hf Hn' Hf'.
  pose proof (getNumCoefficients_pos ORDER type) as HN.
  unfold butterworth, butterworth_a, butterworth_store. cbv zeta.
  set (N := getNumCoefficients ORDER type) in *.
  set (zPoles := design_zPoles _ _ _ _ _ _ _ _).
  set (zZeros := design_zZeros _ _ _ _ _ _ _).
  set (scale := ddiv _ _).
  assert (Ha : length (expandPolynomial (N - 1) zPoles) = N).
  { rewrite expandPolynomial_length. lia. }
  assert (Hb : length ((fun coef => dmul coef scale) <$> expandPolynomial (N - 1) zZeros) = N).
  { rewrite length_fmap, expandPolynomial_length. lia. }
  rewrite !store_reversed_all by assumption.
  cbn [coef_naturalResponseCoefficients coef_forcedResponseCoefficients].
  rewrite !length_reverse, !length_fmap, !expandPolynomial_length.
  repeat split; try lia.
  unfold N, getNumCoefficients.
  destruct type; cbn [FilterType_value];
    [change (truthy (Z.land 0 2)) with false | change (truthy (Z.land 1 2)) with false
    | change (truthy (Z.land 2 2)) with true | change (truthy (Z.land 3 2)) with true];
    cbv iota; lia.
Qed.

Lemma butterworth_result_is_reversed_polynomial_witness :
  coef_naturalResponseCoefficients coarse_lowpass =
    reverse (double_to_float <$>
             butterworth_a coarse_tan coarse_cos coarse_sin coarse_atan2
                           1 LOWPASS (double_lit 6 0) (double_lit 1 0) zero) /\
  butterworth coarse_tan coarse_cos coarse_sin coarse_atan2
              1 LOWPASS (double_lit 6 0) (double_lit 1 0) zero
              (mkCoefficients [float_lit 7 0; S754_nan] [S754_nan; float_lit 9 0])
  = coarse_lowpass.
Proof.
  pose proof (butterworth_result_is_reversed_polynomial
                coarse_tan coarse_cos coarse_sin coarse_atan2
                1 LOWPASS (double_lit 6 0) (double_lit 1 0) zero
                (mkCoefficients [zero; zero] [zero; zero])
                (mkCoefficients [float_lit 7 0; S754_nan] [S754_nan; float_lit 9 0])
                eq_refl eq_refl eq_refl eq_refl) as H.
  cbv zeta in H. destruct H as (_ & Hnat & _ & _ & Hsame).
  split; [exact Hnat | exact Hsame].
Defined.

End StorageFacts.

(* ===================================================================== *)
(** * Further properties: the diagnostic register *)
(* ===================================================================== *)

Module DiagnosticFacts.
Import Encoder Driver IntFacts ParityFacts EncoderFacts DriverFacts SequenceFacts
       ReadingFacts.
Import Stdlib.Strings.String.

(** [getDiagnostic] on the bits of the response. *)
Lemma getDiagnostic_bits (w : World) :
  eval getDiagnostic w =
    if Z.testbit (incoming w) 13 then "COMP high"%string
    else if Z.testbit (incoming w) 12 then "COMP low"%string
    else if Z.testbit (incoming w) 11 then "CORDIC overflow"%string
    else if Z.testbit (incoming w) 10 && Bool.eqb (ocfFlag (dev w)) false
         then ocf_message
         else EmptyString.
Proof.
  unfold eval. rewrite getDiagnostic_run. cbv zeta.
  unfold AS5048A_DIAG_COMP_HIGH, AS5048A_DIAG_COMP_LOW, AS5048A_DIAG_COF,
    AS5048A_DIAG_OCF.
  rewrite !stripped_low_bits by reflexivity.
  rewrite (truthy_land_pow2 (incoming w) 13 ltac:(lia) : truthy (Z.land _ 0x2000) = _).
  rewrite (truthy_land_pow2 (incoming w) 12 ltac:(lia) : truthy (Z.land _ 0x1000) = _).
  rewrite (truthy_land_pow2 (incoming w) 11 ltac:(lia) : truthy (Z.land _ 0x0800) = _).
  rewrite (truthy_land_pow2 (incoming w) 10 ltac:(lia) : truthy (Z.land _ 0x0400) = _).
  destruct (Z.testbit (incoming w) 13); [reflexivity|].
  destruct (Z.testbit (incoming w) 12); [reflexivity|].
  destruct (Z.testbit (incoming w) 11); [reflexivity|].
  destruct (Z.testbit (incoming w) 10 && Bool.eqb (ocfFlag (dev w)) false); reflexivity.
Qed.

(** X18. [getDiagnostic] reports the highest of the bits 13, 12 and 11 of
    the response that is set ("COMP high", "COMP low", "CORDIC overflow");
    with none of them set it reports "Offset compensation finished" when
    bit 10 is set and the message has not been reported before, and the
    empty string otherwise, that is when bit 10 is clear or the message
    has been reported.  A compensation or overflow flag therefore hides
    the finished message without consuming it: [ocfFlag] stays as it
    was. *)
Theorem getDiagnostic_names_highest_bit (w : World) :
  let r := incoming w in
  (eval getDiagnostic w = "COMP high"%string <-> Z.testbit r 13 = true) /\
  (eval getDiagnostic w = "COMP low"%string <->
     Z.testbit r 13 = false /\ Z.testbit r 12 = true) /\
  (eval getDiagnostic w = "CORDIC overflow"%string <->
     Z.testbit r 13 = false /\ Z.testbit r 12 = false /\ Z.testbit r 11 = true) /\
  (eval getDiagnostic w = ocf_message <->
     Z.testbit r 13 = false /\ Z.testbit r 12 = false /\ Z.testbit r 11 = false /\
     Z.testbit r 10 = true /\ ocfFlag (dev w) = false) /\
  (eval getDiagnostic w = EmptyString <->
     Z.testbit r 13 = false /\ Z.testbit r 12 = false /\ Z.testbit r 11 = false /\
     (Z.testbit r 10 = false \/ ocfFlag (dev w) = true)) /\
  (eval getDiagnostic w <> ocf_message ->
     ocfFlag (dev (exec getDiagnostic w)) = ocfFlag (dev w)).
Proof.
  cbv zeta. split; [|split; [|split; [|split; [|split]]]].
  1-5: rewrite getDiagnostic_bits; unfold ocf_message;
    destruct (Z.testbit (incoming w) 13), (Z.testbit (incoming w) 12),
             (Z.testbit (incoming w) 11), (Z.testbit (incoming w) 10),
             (ocfFlag (dev w));
    cbn [andb Bool.eqb];
    split; intros H;
    repeat match goal with
           | H : _ /\ _ |- _ => destruct H
           | H : _ \/ _ |- _ => destruct H
           end; try discriminate; repeat split; auto.
  unfold eval, exec. rewrite getDiagnostic_run. cbv zeta.
  repeat match goal with
         | |- context [if ?b then _ else _] => destruct b
         end; cbn [fst snd dev]; unfold ocf_message; intros H;
    try reflexivity. contradiction H. reflexivity.
Qed.

End DiagnosticFacts.
